(** * cesame-etl: the document processor front end

    A shallow embedding of the [DocumentProcessor] React component
    (the second half of [src/frontend/src/services/api.js]) and of the
    fixed-window chunker described by the specification.

    The component keeps its state in [useState] cells; its handlers are
    [async] functions that run up to their first [await], are suspended
    while the HTTP call is in flight, and resume in the [try] body or in
    the [catch] block.  Each handler is therefore embedded as a group of
    pure functions on an explicit [State]: the synchronous prefix, the
    interval callback, the continuation after a fulfilled call and the
    continuation after a rejected call.  The interleaving of these pieces
    is a list of [Event]s executed by [exec]. *)

From Stdlib Require Import ZArith String List Lia.
From stdpp Require Import base option list gmap strings fin_maps.

Local Open Scope string_scope.
Local Open Scope list_scope.
Local Open Scope Z_scope.

(** ** Data *)

(** Values a configuration field can hold: checkbox states, slider and
    select numbers ([parseInt]), strings. *)
Inductive JVal : Type :=
  | JBool (b : bool)
  | JNum (n : Z)
  | JStr (s : string).

#[global] Instance JVal_eq_dec : EqDecision JVal.
Proof. solve_decision. Defined.

(** A configuration is a JS object of sections, each a JS object of
    fields. *)
Abbreviation ConfigSection := (gmap string JVal).
Abbreviation Config := (gmap string (gmap string JVal)).

Definition DEFAULT_CONFIG : Config :=
  list_to_map
    [ ("chunking", list_to_map
         [ ("chunkSize", JNum 800); ("overlapSize", JNum 100);
           ("minChunkSize", JNum 200); ("respectBoundaries", JBool true);
           ("strategy", JStr "semantic") ]);
      ("embedding", list_to_map
         [ ("model", JStr "voyagerai"); ("dimensions", JNum 1024) ]);
      ("weaviate", list_to_map
         [ ("url", JStr ""); ("apiKey", JStr "") ]);
      ("cleaning", list_to_map
         [ ("removeHeaders", JBool true); ("removeFooters", JBool true);
           ("removePageNumbers", JBool true);
           ("removeExtraWhitespace", JBool true);
           ("normalizeQuotes", JBool true); ("fixHyphenation", JBool true) ]) ].

(** [config[section][key]], [None] standing for [undefined]. *)
Definition config_get (c : Config) (section key : string) : option JVal :=
  c !! section ≫= (.!! key).

(** [handleConfigChange]:
    [{...prev, [section]: {...prev[section], [key]: value}}].
    Spreading an absent section spreads [undefined], which adds nothing. *)
Definition handleConfigChange (section key : string) (value : JVal)
    (prev : Config) : Config :=
  <[section := <[key := value]> (default ∅ (prev !! section))]> prev.

(** ** Documents, chunks and the processing-status table *)

(** The literals used for [status] in [files] and in [processingStatus]. *)
Inductive Status : Type :=
  | Uploading | Pending | Processing | Reprocessing
  | Indexing | Completed | Indexed | Error.

#[global] Instance Status_eq_dec : EqDecision Status.
Proof. solve_decision. Defined.

Definition status_literal (s : Status) : string :=
  match s with
  | Uploading => "uploading" | Pending => "pending"
  | Processing => "processing" | Reprocessing => "reprocessing"
  | Indexing => "indexing" | Completed => "completed"
  | Indexed => "indexed" | Error => "error"
  end.

(** A chunk as the API returns it and the preview renders it:
    [{id, content, metadata: {page_range?, section?, key_concepts?}}]. *)
Record Chunk : Type := mkChunk {
  chunk_id : string;
  content : string;
  page_range : option string;
  chunk_section : option string;
  key_concepts : list string
}.

Record Metadata : Type := mkMetadata {
  language : option string;
  concepts : list string;
  authors : list string
}.

Record IndexingStats : Type := mkIndexingStats {
  chunks_count : Z;
  total_tokens : Z;
  chunking_strategy : string;
  chunk_size : Z;
  chunk_overlap : Z;
  cleaning_applied : bool;
  cleaned_percentage : Z;
  timestamp : string
}.

(** An element of [files].  [f_file] stands for the browser [File]
    handle, compared with [===] in [handleFileUpload]. *)
Record FileObj : Type := mkFileObj {
  f_file : string;
  f_id : string;
  f_status : Status;
  f_progress : Z;
  f_chunks : list Chunk;
  f_metadata : option Metadata;
  f_indexingStats : option IndexingStats;
  f_error : option string
}.

(** A value of [processingStatus]: [{status, progress}] or
    [{status: 'error', error}]. *)
Record PSEntry : Type := mkPSEntry {
  ps_status : Status;
  ps_progress : option Z;
  ps_error : option string
}.

Definition ps_running (s : Status) (progress : Z) : PSEntry :=
  {| ps_status := s; ps_progress := Some progress; ps_error := None |}.

Definition ps_failed (message : string) : PSEntry :=
  {| ps_status := Error; ps_progress := None; ps_error := Some message |}.

(** ** The asynchronous runtime

    Every call of [processDocument], [reprocessCurrentDocument] or
    [sendToWeaviate] that gets past its guard creates one interval and one
    pending HTTP call.  A [Run] is the closure shared by the interval
    callback and the continuation of the [await]. *)
Inductive Op : Type := OpProcess | OpReprocess | OpIndex.

#[global] Instance Op_eq_dec : EqDecision Op.
Proof. solve_decision. Defined.

Record Run : Type := mkRun {
  r_op : Op;
  r_doc : string;              (* [fileObj.id] / [currentDocument.id] of the closure *)
  r_config : Config;           (* [config] of the closure, the body of the request *)
  r_current : option string;   (* [currentDocument?.id] of the closure *)
  r_progress : Z;              (* [let progress] *)
  r_interval : bool;           (* the interval has not been cleared *)
  r_pending : bool             (* the HTTP call has not settled *)
}.

(** One iteration of the loop of [handleFileUpload], suspended at
    [await documentService.uploadFile(file)]. *)
Record Upload : Type := mkUpload {
  u_file : string;                 (* the file being uploaded *)
  u_rest : list (string * string); (* the files the loop has not reached *)
  u_config : Config;
  u_current : option string;
  u_pending : bool
}.

(** The [useState] cells of the component that the handlers read or
    write, followed by the runtime: closures of the calls in flight and the
    messages passed to [alert].  ([settingsOpen], [activeTab] and
    [previewMode] only select what is rendered.) *)
Record State : Type := mkState {
  files : list FileObj;
  processingStatus : gmap string PSEntry;
  currentDocument : option FileObj;
  documentChunks : list Chunk;
  config : Config;
  weaviateStatus : string;
  embeddingStatus : string;
  indexingStats : option IndexingStats;
  runs : list Run;
  uploads : list Upload;
  pendingWeaviate : nat;
  pendingEmbedder : nat;
  pendingStatus : bool;
  alerts : list string
}.

Definition initial_state : State :=
  {| files := []; processingStatus := ∅; currentDocument := None;
     documentChunks := []; config := DEFAULT_CONFIG;
     weaviateStatus := "disconnected"; embeddingStatus := "disconnected";
     indexingStats := None;
     runs := []; uploads := []; pendingWeaviate := 0%nat;
     pendingEmbedder := 0%nat; pendingStatus := true; alerts := [] |}.

(** How an [async] handler leaves its synchronous part. *)
Inductive Control : Type :=
  | Returned                       (* ran to its end: the promise is fulfilled *)
  | Suspended                      (* waiting at an [await] *)
  | Threw (name message : string). (* an exception escaped: the promise is rejected *)

(** *** State setters *)

Definition setFiles (g : list FileObj → list FileObj) (st : State) : State :=
  {| files := g (files st); processingStatus := processingStatus st;
     currentDocument := currentDocument st; documentChunks := documentChunks st;
     config := config st; weaviateStatus := weaviateStatus st;
     embeddingStatus := embeddingStatus st; indexingStats := indexingStats st;
     runs := runs st; uploads := uploads st;
     pendingWeaviate := pendingWeaviate st; pendingEmbedder := pendingEmbedder st;
     pendingStatus := pendingStatus st; alerts := alerts st |}.

Definition setProcessingStatus
    (g : gmap string PSEntry → gmap string PSEntry) (st : State) : State :=
  {| files := files st; processingStatus := g (processingStatus st);
     currentDocument := currentDocument st; documentChunks := documentChunks st;
     config := config st; weaviateStatus := weaviateStatus st;
     embeddingStatus := embeddingStatus st; indexingStats := indexingStats st;
     runs := runs st; uploads := uploads st;
     pendingWeaviate := pendingWeaviate st; pendingEmbedder := pendingEmbedder st;
     pendingStatus := pendingStatus st; alerts := alerts st |}.

Definition setCurrentDocument (d : option FileObj) (st : State) : State :=
  {| files := files st; processingStatus := processingStatus st;
     currentDocument := d; documentChunks := documentChunks st;
     config := config st; weaviateStatus := weaviateStatus st;
     embeddingStatus := embeddingStatus st; indexingStats := indexingStats st;
     runs := runs st; uploads := uploads st;
     pendingWeaviate := pendingWeaviate st; pendingEmbedder := pendingEmbedder st;
     pendingStatus := pendingStatus st; alerts := alerts st |}.

Definition setDocumentChunks (c : list Chunk) (st : State) : State :=
  {| files := files st; processingStatus := processingStatus st;
     currentDocument := currentDocument st; documentChunks := c;
     config := config st; weaviateStatus := weaviateStatus st;
     embeddingStatus := embeddingStatus st; indexingStats := indexingStats st;
     runs := runs st; uploads := uploads st;
     pendingWeaviate := pendingWeaviate st; pendingEmbedder := pendingEmbedder st;
     pendingStatus := pendingStatus st; alerts := alerts st |}.

Definition setConfig (g : Config → Config) (st : State) : State :=
  {| files := files st; processingStatus := processingStatus st;
     currentDocument := currentDocument st; documentChunks := documentChunks st;
     config := g (config st); weaviateStatus := weaviateStatus st;
     embeddingStatus := embeddingStatus st; indexingStats := indexingStats st;
     runs := runs st; uploads := uploads st;
     pendingWeaviate := pendingWeaviate st; pendingEmbedder := pendingEmbedder st;
     pendingStatus := pendingStatus st; alerts := alerts st |}.

Definition setWeaviateStatus (s : string) (st : State) : State :=
  {| files := files st; processingStatus := processingStatus st;
     currentDocument := currentDocument st; documentChunks := documentChunks st;
     config := config st; weaviateStatus := s;
     embeddingStatus := embeddingStatus st; indexingStats := indexingStats st;
     runs := runs st; uploads := uploads st;
     pendingWeaviate := pendingWeaviate st; pendingEmbedder := pendingEmbedder st;
     pendingStatus := pendingStatus st; alerts := alerts st |}.

Definition setEmbeddingStatus (s : string) (st : State) : State :=
  {| files := files st; processingStatus := processingStatus st;
     currentDocument := currentDocument st; documentChunks := documentChunks st;
     config := config st; weaviateStatus := weaviateStatus st;
     embeddingStatus := s; indexingStats := indexingStats st;
     runs := runs st; uploads := uploads st;
     pendingWeaviate := pendingWeaviate st; pendingEmbedder := pendingEmbedder st;
     pendingStatus := pendingStatus st; alerts := alerts st |}.

Definition setIndexingStats (s : option IndexingStats) (st : State) : State :=
  {| files := files st; processingStatus := processingStatus st;
     currentDocument := currentDocument st; documentChunks := documentChunks st;
     config := config st; weaviateStatus := weaviateStatus st;
     embeddingStatus := embeddingStatus st; indexingStats := s;
     runs := runs st; uploads := uploads st;
     pendingWeaviate := pendingWeaviate st; pendingEmbedder := pendingEmbedder st;
     pendingStatus := pendingStatus st; alerts := alerts st |}.

Definition set_runs (g : list Run → list Run) (st : State) : State :=
  {| files := files st; processingStatus := processingStatus st;
     currentDocument := currentDocument st; documentChunks := documentChunks st;
     config := config st; weaviateStatus := weaviateStatus st;
     embeddingStatus := embeddingStatus st; indexingStats := indexingStats st;
     runs := g (runs st); uploads := uploads st;
     pendingWeaviate := pendingWeaviate st; pendingEmbedder := pendingEmbedder st;
     pendingStatus := pendingStatus st; alerts := alerts st |}.

Definition set_uploads (g : list Upload → list Upload) (st : State) : State :=
  {| files := files st; processingStatus := processingStatus st;
     currentDocument := currentDocument st; documentChunks := documentChunks st;
     config := config st; weaviateStatus := weaviateStatus st;
     embeddingStatus := embeddingStatus st; indexingStats := indexingStats st;
     runs := runs st; uploads := g (uploads st);
     pendingWeaviate := pendingWeaviate st; pendingEmbedder := pendingEmbedder st;
     pendingStatus := pendingStatus st; alerts := alerts st |}.

Definition set_pending (w e : nat) (s : bool) (st : State) : State :=
  {| files := files st; processingStatus := processingStatus st;
     currentDocument := currentDocument st; documentChunks := documentChunks st;
     config := config st; weaviateStatus := weaviateStatus st;
     embeddingStatus := embeddingStatus st; indexingStats := indexingStats st;
     runs := runs st; uploads := uploads st;
     pendingWeaviate := w; pendingEmbedder := e;
     pendingStatus := s; alerts := alerts st |}.

Definition alert (message : string) (st : State) : State :=
  {| files := files st; processingStatus := processingStatus st;
     currentDocument := currentDocument st; documentChunks := documentChunks st;
     config := config st; weaviateStatus := weaviateStatus st;
     embeddingStatus := embeddingStatus st; indexingStats := indexingStats st;
     runs := runs st; uploads := uploads st;
     pendingWeaviate := pendingWeaviate st; pendingEmbedder := pendingEmbedder st;
     pendingStatus := pendingStatus st; alerts := alerts st ++ [message] |}.

(** *** Object spreads on a file record *)

(** [{...f, status: 'completed', chunks: result.chunks, metadata: result.metadata}] *)
Definition file_completed (chunks : list Chunk) (metadata : Metadata)
    (f : FileObj) : FileObj :=
  {| f_file := f_file f; f_id := f_id f; f_status := Completed;
     f_progress := f_progress f; f_chunks := chunks;
     f_metadata := Some metadata; f_indexingStats := f_indexingStats f;
     f_error := f_error f |}.

(** [{...f, status: 'error', error: error.message}] *)
Definition file_failed (message : string) (f : FileObj) : FileObj :=
  {| f_file := f_file f; f_id := f_id f; f_status := Error;
     f_progress := f_progress f; f_chunks := f_chunks f;
     f_metadata := f_metadata f; f_indexingStats := f_indexingStats f;
     f_error := Some message |}.

(** [{...f, status: 'indexed', indexingStats: result.indexing_stats}] *)
Definition file_indexed (stats : IndexingStats) (f : FileObj) : FileObj :=
  {| f_file := f_file f; f_id := f_id f; f_status := Indexed;
     f_progress := f_progress f; f_chunks := f_chunks f;
     f_metadata := f_metadata f; f_indexingStats := Some stats;
     f_error := f_error f |}.

(** [{...f, id: uploadResult.id, status: 'pending', progress: 0}] *)
Definition file_uploaded (uploadId : string) (f : FileObj) : FileObj :=
  {| f_file := f_file f; f_id := uploadId; f_status := Pending;
     f_progress := 0; f_chunks := f_chunks f;
     f_metadata := f_metadata f; f_indexingStats := f_indexingStats f;
     f_error := f_error f |}.

(** [{file, id: `file-...`, status: 'uploading', progress: 0, chunks: [], metadata: null}] *)
Definition file_new (file tmpId : string) : FileObj :=
  {| f_file := file; f_id := tmpId; f_status := Uploading; f_progress := 0;
     f_chunks := []; f_metadata := None; f_indexingStats := None;
     f_error := None |}.

(** [prev.map(f => { if (p(f)) return g(f); return f; })] *)
Definition map_if (p : FileObj → bool) (g : FileObj → FileObj)
    (prev : list FileObj) : list FileObj :=
  map (λ f, if p f then g f else f) prev.

(** *** Intervals and pending calls *)

Definition interval_increment (op : Op) : Z :=
  match op with OpProcess => 5 | OpReprocess => 10 | OpIndex => 5 end.

Definition running_status (op : Op) : Status :=
  match op with
  | OpProcess => Processing | OpReprocess => Reprocessing | OpIndex => Indexing
  end.

Definition run_with_progress (progress : Z) (r : Run) : Run :=
  {| r_op := r_op r; r_doc := r_doc r; r_config := r_config r;
     r_current := r_current r; r_progress := progress;
     r_interval := r_interval r; r_pending := r_pending r |}.

Definition run_cleared (r : Run) : Run :=
  {| r_op := r_op r; r_doc := r_doc r; r_config := r_config r;
     r_current := r_current r; r_progress := r_progress r;
     r_interval := false; r_pending := r_pending r |}.

Definition run_settled (r : Run) : Run :=
  {| r_op := r_op r; r_doc := r_doc r; r_config := r_config r;
     r_current := r_current r; r_progress := r_progress r;
     r_interval := r_interval r; r_pending := false |}.

(** [let progress = 0; const interval = setInterval(...)] followed by
    the HTTP call: a new closure is added to the runtime. *)
Definition start_run (op : Op) (doc : string) (cfg : Config)
    (cur : option string) (st : State) : State :=
  set_runs (λ rs, rs ++ [ {| r_op := op; r_doc := doc; r_config := cfg;
                             r_current := cur; r_progress := 0;
                             r_interval := true; r_pending := true |} ]) st.

Definition clearInterval (n : nat) (st : State) : State :=
  set_runs (alter run_cleared n) st.

(** The interval callback of run [n]:
    [progress += step; if (progress <= 90) setProcessingStatus(...)]. *)
Definition interval_callback (n : nat) (st : State) : State :=
  match runs st !! n with
  | Some r =>
      if r_interval r then
        let progress := r_progress r + interval_increment (r_op r) in
        let st1 := set_runs (alter (run_with_progress progress) n) st in
        if (progress <=? 90)%Z then
          setProcessingStatus
            (<[r_doc r := ps_running (running_status (r_op r)) progress]>) st1
        else st1
      else st
  | None => st
  end.

(** *** [processDocument]

    [config] and [currentDocument] are the dependencies of the
    [useCallback]: the values of the render that made the closure. *)
Definition processDocument (config_ : Config) (currentDocument_ : option string)
    (fileObj_id : string) (st : State) : State * Control :=
  let st1 := setProcessingStatus (<[fileObj_id := ps_running Processing 0]>) st in
  (start_run OpProcess fileObj_id config_ currentDocument_ st1, Suspended).

Definition processDocument_then (n : nat) (r : Run)
    (chunks : list Chunk) (metadata : Metadata) (st : State) : State :=
  let st1 := clearInterval n st in
  let st2 := setProcessingStatus (<[r_doc r := ps_running Completed 100]>) st1 in
  let st3 := setFiles (map_if (λ f, String.eqb (f_id f) (r_doc r))
                              (file_completed chunks metadata)) st2 in
  match r_current r with
  | Some cur => if String.eqb cur (r_doc r) then setDocumentChunks chunks st3 else st3
  | None => st3
  end.

Definition processDocument_catch (r : Run) (message : string) (st : State) : State :=
  let st1 := setProcessingStatus (<[r_doc r := ps_failed message]>) st in
  setFiles (map_if (λ f, String.eqb (f_id f) (r_doc r)) (file_failed message)) st1.

(** *** [reprocessCurrentDocument] *)
Definition reprocessCurrentDocument (st : State) : State * Control :=
  match currentDocument st with
  | None => (st, Returned)
  | Some cur =>
      let st1 := setProcessingStatus (<[f_id cur := ps_running Reprocessing 0]>) st in
      (start_run OpReprocess (f_id cur) (config st) (Some (f_id cur)) st1, Suspended)
  end.

Definition reprocessCurrentDocument_then (n : nat) (r : Run)
    (chunks : list Chunk) (metadata : Metadata) (st : State) : State :=
  let st1 := clearInterval n st in
  let st2 := setProcessingStatus (<[r_doc r := ps_running Completed 100]>) st1 in
  let st3 := setFiles (map_if (λ f, String.eqb (f_id f) (r_doc r))
                              (file_completed chunks metadata)) st2 in
  setDocumentChunks chunks st3.

Definition reprocessCurrentDocument_catch (r : Run) (message : string)
    (st : State) : State :=
  setProcessingStatus (<[r_doc r := ps_failed message]>) st.

(** *** [sendToWeaviate] *)
Definition sendToWeaviate (st : State) : State * Control :=
  match currentDocument st with
  | None => (st, Returned)
  | Some cur =>
      if negb (String.eqb (weaviateStatus st) "connected")
         || negb (String.eqb (embeddingStatus st) "connected")
      then (st, Returned)
      else
        let st1 := setProcessingStatus (<[f_id cur := ps_running Indexing 0]>) st in
        (start_run OpIndex (f_id cur) (config st) (Some (f_id cur)) st1, Suspended)
  end.

Definition sendToWeaviate_then (n : nat) (r : Run)
    (indexing_stats : IndexingStats) (st : State) : State :=
  let st1 := clearInterval n st in
  let st2 := setProcessingStatus (<[r_doc r := ps_running Indexed 100]>) st1 in
  let st3 := setIndexingStats (Some indexing_stats) st2 in
  setFiles (map_if (λ f, String.eqb (f_id f) (r_doc r))
                   (file_indexed indexing_stats)) st3.

Definition sendToWeaviate_catch (r : Run) (message : string) (st : State) : State :=
  let st1 := setProcessingStatus (<[r_doc r := ps_failed message]>) st in
  alert ("Erreur d'indexation: " +:+ message) st1.

(** *** Settling the HTTP call of a run *)

(** What the awaited promise of [documentService] settles to. *)
Inductive Response : Type :=
  | ProcessOk (chunks : list Chunk) (metadata : Metadata)  (* POST /process/:id *)
  | IndexOk (indexing_stats : IndexingStats)               (* POST /index/:id *)
  | Failure (message : string).                            (* rejection, [error.message] *)

Definition settle (n : nat) (resp : Response) (st : State) : State :=
  match runs st !! n with
  | Some r =>
      if r_pending r then
        let st1 := set_runs (alter run_settled n) st in
        match r_op r, resp with
        | OpProcess, ProcessOk c m => processDocument_then n r c m st1
        | OpProcess, Failure msg => processDocument_catch r msg st1
        | OpReprocess, ProcessOk c m => reprocessCurrentDocument_then n r c m st1
        | OpReprocess, Failure msg => reprocessCurrentDocument_catch r msg st1
        | OpIndex, IndexOk s => sendToWeaviate_then n r s st1
        | OpIndex, Failure msg => sendToWeaviate_catch r msg st1
        | _, _ => st
        end
      else st
  | None => st
  end.

(** *** The effect on [[files, processDocument]]:
    [files.filter(f => f.status === 'pending').forEach(processDocument)] *)
Definition effect_pending (st : State) : State :=
  foldl (λ s f, (processDocument (config st) (f_id <$> currentDocument st)
                                 (f_id f) s).1)
        st (filter (λ f, f_status f = Pending) (files st)).

(** *** [handleFileUpload]

    [newFiles] pairs each selected file with the identifier
    [`file-${Date.now()}-${Math.random()...}`] it will be given. *)
Definition upload_loop (k : nat) (st : State) : State :=
  match uploads st !! k with
  | Some u =>
      match u_rest u with
      | [] =>
          set_uploads (<[k := {| u_file := u_file u; u_rest := [];
                                 u_config := u_config u; u_current := u_current u;
                                 u_pending := false |}]>) st
      | (file, tmpId) :: rest =>
          let st1 := setFiles (λ prev, prev ++ [file_new file tmpId]) st in
          set_uploads (<[k := {| u_file := file; u_rest := rest;
                                 u_config := u_config u; u_current := u_current u;
                                 u_pending := true |}]>) st1
      end
  | None => st
  end.

Definition handleFileUpload (newFiles : list (string * string)) (st : State)
    : State * Control :=
  match newFiles with
  | [] => (st, Returned)
  | _ :: _ =>
      let k := length (uploads st) in
      let st1 := set_uploads (λ us, us ++ [ {| u_file := ""; u_rest := newFiles;
                                               u_config := config st;
                                               u_current := f_id <$> currentDocument st;
                                               u_pending := false |} ]) st in
      (upload_loop k st1, Suspended)
  end.

Definition handleFileUpload_then (k : nat) (uploadResult_id : string)
    (st : State) : State :=
  match uploads st !! k with
  | Some u =>
      if u_pending u then
        let st1 := setFiles (map_if (λ f, String.eqb (f_file f) (u_file u))
                                    (file_uploaded uploadResult_id)) st in
        let st2 := (processDocument (u_config u) (u_current u) uploadResult_id st1).1 in
        upload_loop k st2
      else st
  | None => st
  end.

Definition handleFileUpload_catch (k : nat) (message : string) (st : State) : State :=
  match uploads st !! k with
  | Some u =>
      if u_pending u then
        let st1 := setFiles (map_if (λ f, String.eqb (f_file f) (u_file u))
                                    (file_failed message)) st in
        upload_loop k st1
      else st
  | None => st
  end.

(** *** [handleSelectDocument] *)
Definition handleSelectDocument (fileObj : option FileObj) (st : State) : State :=
  let st1 := setCurrentDocument fileObj st in
  match fileObj with
  | Some f => setDocumentChunks (f_chunks f) st1
  | None => setDocumentChunks [] st1
  end.

(** *** Connections *)
Definition connectToWeaviate (st : State) : State * Control :=
  (set_pending (S (pendingWeaviate st)) (pendingEmbedder st) (pendingStatus st)
     (setWeaviateStatus "connecting" st), Suspended).

Definition connectToWeaviate_then (st : State) : State :=
  setWeaviateStatus "connected" st.

Definition connectToWeaviate_catch (message : string) (st : State) : State :=
  alert ("Erreur de connexion à Weaviate: " +:+ message)
        (setWeaviateStatus "disconnected" st).

Definition connectToEmbedder (st : State) : State * Control :=
  (set_pending (pendingWeaviate st) (S (pendingEmbedder st)) (pendingStatus st)
     (setEmbeddingStatus "connecting" st), Suspended).

Definition connectToEmbedder_then (st : State) : State :=
  setEmbeddingStatus "connected" st.

Definition connectToEmbedder_catch (message : string) (st : State) : State :=
  alert ("Erreur de connexion à l'embedder: " +:+ message)
        (setEmbeddingStatus "disconnected" st).

(** [checkConnectionStatus], once [getConnectionStatus] has answered. *)
Definition checkConnectionStatus_then (weaviate embedder : string) (st : State) : State :=
  setEmbeddingStatus embedder (setWeaviateStatus weaviate st).

(** ** Events and executions *)

Inductive Event : Type :=
  | EFileUpload (newFiles : list (string * string))
  | EUploaded (k : nat) (uploadResult_id : string)
  | EUploadFailed (k : nat) (message : string)
  | EEffectPending
  | ESelect (i : nat)
  | EConfigChange (section key : string) (value : JVal)
  | EReprocess
  | ESendToWeaviate
  | EInterval (n : nat)
  | ESettle (n : nat) (resp : Response)
  | EConnectWeaviate
  | EWeaviateAnswer (failure : option string)
  | EConnectEmbedder
  | EEmbedderAnswer (failure : option string)
  | EStatusAnswer (answer : option (string * string)).

Definition step (ev : Event) (st : State) : State :=
  match ev with
  | EFileUpload newFiles => (handleFileUpload newFiles st).1
  | EUploaded k uid => handleFileUpload_then k uid st
  | EUploadFailed k msg => handleFileUpload_catch k msg st
  | EEffectPending => effect_pending st
  | ESelect i =>
      match files st !! i with
      | Some f => handleSelectDocument (Some f) st
      | None => st
      end
  | EConfigChange s k v => setConfig (handleConfigChange s k v) st
  | EReprocess => (reprocessCurrentDocument st).1
  | ESendToWeaviate => (sendToWeaviate st).1
  | EInterval n => interval_callback n st
  | ESettle n resp => settle n resp st
  | EConnectWeaviate => (connectToWeaviate st).1
  | EWeaviateAnswer failure =>
      match pendingWeaviate st with
      | O => st
      | S w =>
          let st1 := set_pending w (pendingEmbedder st) (pendingStatus st) st in
          match failure with
          | None => connectToWeaviate_then st1
          | Some msg => connectToWeaviate_catch msg st1
          end
      end
  | EConnectEmbedder => (connectToEmbedder st).1
  | EEmbedderAnswer failure =>
      match pendingEmbedder st with
      | O => st
      | S e =>
          let st1 := set_pending (pendingWeaviate st) e (pendingStatus st) st in
          match failure with
          | None => connectToEmbedder_then st1
          | Some msg => connectToEmbedder_catch msg st1
          end
      end
  | EStatusAnswer answer =>
      if pendingStatus st then
        let st1 := set_pending (pendingWeaviate st) (pendingEmbedder st) false st in
        match answer with
        | Some (w, e) => checkConnectionStatus_then w e st1
        | None => st1
        end
      else st
  end.

(** The state after the events of [evs], oldest first. *)
Definition exec (evs : list Event) (st : State) : State :=
  foldl (λ s ev, step ev s) st evs.

(** ** The fixed-window chunker

    The chunker runs in the Python back end ([processors/chunking.py]),
    which is not part of the sources at hand; the front end only posts
    [config] to [/process/:id] and stores the chunks that come back. *)

(** Modelled from the spec: the strategies and the chunk configuration
    [{chunkSize, overlapSize, minChunkSize, respectBoundaries, strategy}];
    the field names are those of the front end's [config.chunking]. *)
Inductive Strategy : Type := fixed | paragraph | semantic.

Record ChunkConfig : Type := mkChunkConfig {
  chunkSize : Z;
  overlapSize : Z;
  minChunkSize : Z;
  respectBoundaries : bool;
  strategy : Strategy
}.

(** Modelled from the spec: the validity condition on chunk
    configurations, missing with the back end:
    [chunkSize > minChunkSize > 0] and [0 ≤ overlapSize < chunkSize]. *)
Definition valid_config (c : ChunkConfig) : bool :=
  (minChunkSize c <? chunkSize c)%Z && (0 <? minChunkSize c)%Z
  && (0 <=? overlapSize c)%Z && (overlapSize c <? chunkSize c)%Z.

(** The chunking section of the front end's [config], read as a
    [ChunkConfig]. *)
Definition strategy_of (v : JVal) : option Strategy :=
  match v with
  | JStr s =>
      if String.eqb s "fixed" then Some fixed
      else if String.eqb s "paragraph" then Some paragraph
      else if String.eqb s "semantic" then Some semantic
      else None
  | _ => None
  end.

Definition num_of (v : JVal) : option Z :=
  match v with JNum n => Some n | _ => None end.

Definition bool_of (v : JVal) : option bool :=
  match v with JBool b => Some b | _ => None end.

Definition chunkConfig_of (c : Config) : option ChunkConfig :=
  size ← config_get c "chunking" "chunkSize" ≫= num_of;
  overlap ← config_get c "chunking" "overlapSize" ≫= num_of;
  minSize ← config_get c "chunking" "minChunkSize" ≫= num_of;
  respect ← config_get c "chunking" "respectBoundaries" ≫= bool_of;
  strat ← config_get c "chunking" "strategy" ≫= strategy_of;
  Some {| chunkSize := size; overlapSize := overlap; minChunkSize := minSize;
          respectBoundaries := respect; strategy := strat |}.

(** Modelled from the spec: a chunk as [split] produces it, missing with
    the back end: sequence index, offsets into the cleaned text and
    content, no metadata yet. *)
Record Span : Type := mkSpan {
  seq_index : nat;
  start_offset : Z;
  end_offset : Z;
  span_content : string
}.

(** Modelled from the spec: the error taxonomy of its section 7. *)
Inductive ErrorKind : Type :=
  | ExtractionError | ConfigError | MetadataPartialFailure
  | ConnectionError | IndexingFailure.

Inductive Result (A : Type) : Type :=
  | Ok (a : A)
  | Err (e : ErrorKind).
Arguments Ok {A} a.
Arguments Err {A} e.

(** Modelled from the spec: the windows of the fixed strategy, missing
    with the back end.  A window of width [width] is placed at [start];
    when it reaches the end of the text it is the final window and is
    truncated to the remaining text, otherwise the next window starts
    [stride] characters further. *)
Fixpoint sliding_windows (fuel : nat) (len width stride start : Z) : list (Z * Z) :=
  match fuel with
  | O => []
  | S fuel' =>
      if (len <=? start + width)%Z then [(start, len)]
      else (start, start + width)
             :: sliding_windows fuel' len width stride (start + stride)
  end.

(** Modelled from the spec: a final window shorter than [minSize] is
    merged into the previous chunk instead of being emitted. *)
Definition merge_short_tail (minSize : Z) (ws : list (Z * Z)) : list (Z * Z) :=
  match reverse ws with
  | (s, e) :: (ps, pe) :: before =>
      if (e - s <? minSize)%Z then reverse ((ps, e) :: before) else ws
  | _ => ws
  end.

(** Modelled from the spec: the offsets of the chunks of a text of length
    [len]; the first window starts at 0, an empty text has no chunk. *)
Definition fixed_offsets (len : Z) (c : ChunkConfig) : list (Z * Z) :=
  if (len =? 0)%Z then []
  else merge_short_tail (minChunkSize c)
         (sliding_windows (Z.to_nat len) len (chunkSize c)
                          (chunkSize c - overlapSize c) 0).

(** Modelled from the spec: the chunk at offsets [w], its content being
    that slice of the cleaned text. *)
Definition span_of (text : string) (i : nat) (w : Z * Z) : Span :=
  {| seq_index := i; start_offset := w.1; end_offset := w.2;
     span_content := substring (Z.to_nat w.1) (Z.to_nat (w.2 - w.1)) text |}.

(** Modelled from the spec: [split] for the fixed strategy, missing with
    the back end.  An invalid configuration is rejected before any chunk
    is produced. *)
Definition split_fixed (cleanedText : string) (c : ChunkConfig)
    : Result (list Span) :=
  if valid_config c then
    Ok (imap (span_of cleanedText)
             (fixed_offsets (Z.of_nat (String.length cleanedText)) c))
  else Err ConfigError.

(** ** Sample executions *)

Definition chunks_v1 : list Chunk :=
  [ mkChunk "doc-1-0" "Premier passage." (Some "1") None [];
    mkChunk "doc-1-1" "Second passage." (Some "1-2") None [] ].

Definition chunks_v2 : list Chunk :=
  [ mkChunk "doc-1-0" "Premier passage. Second passage." (Some "1-2") None [] ].

Definition metadata_v1 : Metadata :=
  {| language := Some "fr"; concepts := ["passage"]; authors := [] |}.

(** One file is uploaded, processed and selected; nothing is connected. *)
Definition completed_doc : State :=
  exec [ EFileUpload [("rapport.txt", "file-1-k3x9")];
         EUploaded 0 "doc-1";
         ESettle 0 (ProcessOk chunks_v1 metadata_v1);
         ESelect 0 ] initial_state.

(** The same, with Weaviate and the embedder connected. *)
Definition connected_doc : State :=
  exec [ EConnectWeaviate; EWeaviateAnswer None;
         EConnectEmbedder; EEmbedderAnswer None ] completed_doc.

Definition sample_stats : IndexingStats :=
  {| chunks_count := 2; total_tokens := 7; chunking_strategy := "semantic";
     chunk_size := 800; chunk_overlap := 100; cleaning_applied := true;
     cleaned_percentage := 0; timestamp := "2025-01-01T00:00:00" |}.

(** The document is sent to Weaviate, indexed, and selected again. *)
Definition indexed_doc : State :=
  exec [ ESendToWeaviate; ESettle 1 (IndexOk sample_stats); ESelect 0 ] connected_doc.

(** The chunk-size slider moved to its minimum, 200, which is also the
    default [minChunkSize]. *)
Definition slider_min_doc : State :=
  step (EConfigChange "chunking" "chunkSize" (JNum 200)) completed_doc.

(** Two reprocess requests, the second with another chunk size, answered
    in the opposite order. *)
Definition overtaken_requests : list Event :=
  [ EReprocess;
    EConfigChange "chunking" "chunkSize" (JNum 400);
    EReprocess ].

Definition overtaken_answers : list Event :=
  [ ESettle 2 (ProcessOk chunks_v2 metadata_v1);
    ESettle 1 (ProcessOk chunks_v1 metadata_v1) ].

(** A reprocess request that fails before the first tick of its
    interval. *)
Definition failed_reprocess : list Event :=
  [ EReprocess; ESettle 1 (Failure "Network Error") ].

(** A file is uploaded, processed, selected and reprocessed; the interval
    of the reprocess run has fired twice. *)
Definition ticking_reprocess : list Event :=
  [ EFileUpload [("rapport.txt", "file-1-k3x9")];
    EUploaded 0 "doc-1";
    ESettle 0 (ProcessOk chunks_v1 metadata_v1);
    ESelect 0;
    EReprocess; EInterval 1; EInterval 1 ].

(** The first file record with a given id. *)
Definition find_file (doc : string) (st : State) : option FileObj :=
  head (filter (λ f, f_id f = doc) (files st)).

(** The configuration of the spec's first scenario. *)
Definition scenario1_config : ChunkConfig :=
  {| chunkSize := 100; overlapSize := 20; minChunkSize := 30;
     respectBoundaries := false; strategy := fixed |}.

(** ** Predicates on the processing-status table *)

(** A run for the document is shown as in flight. *)
Definition in_flight (s : Status) : Prop :=
  s = Processing ∨ s = Reprocessing ∨ s = Indexing.

(** The shape of an entry of [processingStatus], by status. *)
Definition entry_ok (e : PSEntry) : Prop :=
  match ps_status e with
  | Processing | Reprocessing | Indexing =>
      ∃ p, ps_progress e = Some p ∧ 0 ≤ p ≤ 90
  | Completed | Indexed => ps_progress e = Some 100
  | Error => ps_progress e = None
  | Uploading | Pending => False
  end.

(** [resp] is the fulfilment of the call made by operation [op]. *)
Definition answers (op : Op) (resp : Response) : Prop :=
  match op, resp with
  | OpProcess, ProcessOk _ _ | OpReprocess, ProcessOk _ _ | OpIndex, IndexOk _ => True
  | _, _ => False
  end.

(** The entries an event can write for document [doc], with what wrote
    them: the start of a run, a tick of an interval, a [catch] block, the
    code after a fulfilled call. *)
Inductive written (ev : Event) (st : State) (doc : string) : PSEntry → Prop :=
  | written_start s :
      in_flight s → written ev st doc (ps_running s 0)
  | written_tick n r :
      ev = EInterval n → runs st !! n = Some r → r_doc r = doc →
      r_progress r + interval_increment (r_op r) ≤ 90 →
      written ev st doc
        (ps_running (running_status (r_op r))
                    (r_progress r + interval_increment (r_op r)))
  | written_failed n r message :
      ev = ESettle n (Failure message) → runs st !! n = Some r →
      r_pending r = true → r_doc r = doc →
      written ev st doc (ps_failed message)
  | written_done n r resp s :
      ev = ESettle n resp → answers (r_op r) resp → runs st !! n = Some r →
      r_pending r = true → r_doc r = doc → s = Completed ∨ s = Indexed →
      written ev st doc (ps_running s 100).

Definition runs_ok (st : State) : Prop :=
  Forall (λ r, 0 ≤ r_progress r) (runs st).

Definition table_ok (st : State) : Prop :=
  map_Forall (λ _ e, entry_ok e) (processingStatus st).

(** A cleaned text of 250 characters. *)
Definition sample_text : string :=
  String.concat "" (replicate 25 "abcdefghij").

(** ** Relations between the closures of two states *)

(** What a closure captured when it was made is the same in [r']. *)
Definition same_closure (r r' : Run) : Prop :=
  r_op r' = r_op r ∧ r_doc r' = r_doc r
  ∧ r_config r' = r_config r ∧ r_current r' = r_current r.

Definition still_pending (r r' : Run) : Prop :=
  same_closure r r' ∧ r_pending r' = r_pending r.

(** Closure [n] of [st] is still there in [st'], related by [P]. *)
Definition run_rel (P : Run → Run → Prop) (n : nat) (st st' : State) : Prop :=
  ∀ r, runs st !! n = Some r → ∃ r', runs st' !! n = Some r' ∧ P r r'.

(** ** What is rendered *)

Inductive Colour : Type := Gray | Yellow | Green | Blue | Red.

(** The dots of the header: green when ['connected'], yellow when
    ['connecting'], red otherwise. *)
Definition connection_dot (status : string) : Colour :=
  if String.eqb status "connected" then Green
  else if String.eqb status "connecting" then Yellow
  else Red.

(** The dot of a list item, chosen by [fileObj.status]; no dot for the
    other statuses. *)
Definition status_dot (s : Status) : option Colour :=
  match s with
  | Pending => Some Gray
  | Processing | Reprocessing | Indexing => Some Yellow
  | Completed => Some Green
  | Indexed => Some Blue
  | Uploading | Error => None
  end.

(** The progress bar of a list item: rendered while
    [processingStatus[fileObj.id]?.status] is ['processing'],
    ['reprocessing'] or ['indexing'], blue for ['indexing'] and yellow
    otherwise, with width [processingStatus[fileObj.id]?.progress || 0]
    percent. *)
Definition progress_bar (st : State) (fileObj : FileObj) : option (Colour * Z) :=
  match processingStatus st !! f_id fileObj with
  | Some e =>
      let width := default 0 (ps_progress e) in
      match ps_status e with
      | Processing | Reprocessing => Some (Yellow, width)
      | Indexing => Some (Blue, width)
      | _ => None
      end
  | None => None
  end.

(** The button of the document header: rendered when a document is
    current and both services are ['connected']; disabled, and labelled
    "Indexé", when [currentDocument.status === 'indexed']. *)
Definition send_button (st : State) : option (bool * string) :=
  match currentDocument st with
  | Some cur =>
      if String.eqb (weaviateStatus st) "connected"
         && String.eqb (embeddingStatus st) "connected"
      then Some (if decide (f_status cur = Indexed)
                 then (true, "Indexé") else (false, "Envoyer à Weaviate"))
      else None
  | None => None
  end.

(** ** Relations between the file records of two states *)

(** The spreads that the handlers apply to a file record. *)
Inductive record_step (f : FileObj) : FileObj → Prop :=
  | record_same : record_step f f
  | record_completed chunks metadata :
      record_step f (file_completed chunks metadata f)
  | record_failed message : record_step f (file_failed message f)
  | record_indexed stats : record_step f (file_indexed stats f)
  | record_uploaded uploadId : record_step f (file_uploaded uploadId f).

(** [l'] is [l] with some records rewritten in place, followed by records
    of files whose upload has just begun. *)
Definition files_step (l l' : list FileObj) : Prop :=
  ∃ l1 extra, l' = l1 ++ extra ∧ Forall2 record_step l l1
              ∧ Forall (λ f, ∃ file tmpId, f = file_new file tmpId) extra.

(** What a record keeps for ever: its file handle, and the presence of
    metadata, of indexing statistics and of an error message. *)
Definition record_kept (f f' : FileObj) : Prop :=
  f_file f' = f_file f
  ∧ (is_Some (f_metadata f) → is_Some (f_metadata f'))
  ∧ (is_Some (f_indexingStats f) → is_Some (f_indexingStats f'))
  ∧ (is_Some (f_error f) → is_Some (f_error f')).

(** The shape of a file record, by status. *)
Definition record_ok (f : FileObj) : Prop :=
  f_progress f = 0
  ∧ match f_status f with
    | Uploading => f_chunks f = [] ∧ f_metadata f = None
                   ∧ f_indexingStats f = None ∧ f_error f = None
    | Pending => True
    | Completed => is_Some (f_metadata f)
    | Indexed => is_Some (f_indexingStats f)
    | Error => is_Some (f_error f)
    | Processing | Reprocessing | Indexing => False
    end.

(** The closure that [processDocument] adds for a file record. *)
Definition process_run (c : Config) (cur : option string) (f : FileObj) : Run :=
  {| r_op := OpProcess; r_doc := f_id f; r_config := c; r_current := cur;
     r_progress := 0; r_interval := true; r_pending := true |}.

(** The events that put a message in an [alert]. *)
Definition alerting (ev : Event) (st : State) : Prop :=
  (∃ n r message, ev = ESettle n (Failure message) ∧ runs st !! n = Some r
                  ∧ r_pending r = true ∧ r_op r = OpIndex)
  ∨ (∃ message, ev = EWeaviateAnswer (Some message))
  ∨ (∃ message, ev = EEmbedderAnswer (Some message)).

(** The event of the answer to an upload: an id, or a message. *)
Definition upload_answer (k : nat) (a : string + string) : Event :=
  match a with
  | inl uploadId => EUploaded k uploadId
  | inr message => EUploadFailed k message
  end.

Definition accepted (a : string + string) : bool :=
  match a with inl _ => true | inr _ => false end.


(** * Properties *)

(** ** Frame property of [handleConfigChange] *)

Lemma handleConfigChange_same section key value (prev : Config) :
  config_get (handleConfigChange section key value prev) section key = Some value.
Proof.
  unfold config_get, handleConfigChange.
  rewrite lookup_insert_eq. simpl. apply lookup_insert_eq.
Qed.

Lemma handleConfigChange_other_key section key key' value (prev : Config) :
  key' ≠ key →
  config_get (handleConfigChange section key value prev) section key'
  = config_get prev section key'.
Proof.
  intros Hne. unfold config_get, handleConfigChange.
  rewrite lookup_insert_eq. simpl.
  rewrite lookup_insert_ne by congruence.
  destruct (prev !! section) as [sec|]; simpl; [done | apply lookup_empty].
Qed.

Lemma handleConfigChange_other_section section section' key value (prev : Config) :
  section' ≠ section →
  handleConfigChange section key value prev !! section' = prev !! section'.
Proof.
  intros Hne. unfold handleConfigChange. by rewrite lookup_insert_ne.
Qed.

(** C9. [handleConfigChange s k v] sets [config[s][k]] to [v] and changes
    nothing else: every other key of section [s] reads as before, and
    every other section (chunking, embedding, weaviate, cleaning, ...) is
    the same object as before. *)
Theorem handleConfigChange_frame (prev : Config) (s k : string) (v : JVal) :
  let next := handleConfigChange s k v prev in
  config_get next s k = Some v
  ∧ (∀ k', k' ≠ k → config_get next s k' = config_get prev s k')
  ∧ (∀ s', s' ≠ s → next !! s' = prev !! s')
  ∧ (∀ s' k', (s', k') ≠ (s, k) → config_get next s' k' = config_get prev s' k').
Proof.
  cbv zeta. split; [apply handleConfigChange_same |].
  split; [intros; by apply handleConfigChange_other_key |].
  split; [intros; by apply handleConfigChange_other_section |].
  intros s' k' Hne. destruct (decide (s' = s)) as [->|Hs].
  - apply handleConfigChange_other_key. congruence.
  - unfold config_get. by rewrite handleConfigChange_other_section.
Qed.

(** ** Closures are stable

    The runtime only ever appends a closure or updates one in place
    ([progress], the interval flag, the pending flag): what a closure
    captured when it was created (operation, document id, configuration,
    current document) never changes, and nothing but the settlement of its
    own call makes a pending call stop being pending. *)

Section RunRelation.
Variable P : Run → Run → Prop.
Variable n : nat.
Hypothesis P_refl : ∀ r, P r r.
Hypothesis P_trans : ∀ r1 r2 r3, P r1 r2 → P r2 r3 → P r1 r3.

Lemma run_rel_refl st : run_rel P n st st.
Proof using P_refl. intros r H. eauto. Qed.

Lemma run_rel_trans st1 st2 st3 :
  run_rel P n st1 st2 → run_rel P n st2 st3 → run_rel P n st1 st3.
Proof using P_trans.
  intros H12 H23 r H.
  destruct (H12 r H) as (r2 & H2 & E1).
  destruct (H23 r2 H2) as (r3 & H3 & E2). eauto.
Qed.

Lemma run_rel_eq st st' : runs st' = runs st → run_rel P n st st'.
Proof using P_refl. intros E r H. rewrite E. eauto. Qed.

Lemma run_rel_alter (g : Run → Run) k st st' :
  (k = n → ∀ r, P r (g r)) →
  runs st' = alter g k (runs st) → run_rel P n st st'.
Proof using P_refl.
  intros Hg E r H. rewrite E.
  destruct (decide (k = n)) as [Hk|Hne].
  - subst k. exists (g r). rewrite list_lookup_alter_eq, H. split; [reflexivity | by apply Hg].
  - exists r. rewrite list_lookup_alter_ne by done. eauto.
Qed.

Lemma run_rel_app st st' extra :
  runs st' = runs st ++ extra → run_rel P n st st'.
Proof using P_refl.
  intros E r H. exists r. rewrite E. split; [| apply P_refl].
  rewrite lookup_app_l; [done | by eapply lookup_lt_Some].
Qed.

Lemma processDocument_run_rel c cur fid st :
  run_rel P n st (processDocument c cur fid st).1.
Proof using P_refl. eapply run_rel_app. reflexivity. Qed.

Lemma effect_fold_run_rel c cur (l : list FileObj) st :
  run_rel P n st (foldl (λ s f, (processDocument c cur (f_id f) s).1) st l).
Proof using P_refl P_trans.
  revert st. induction l as [|f l IH]; intros st; simpl.
  - apply run_rel_refl.
  - eapply run_rel_trans; [| apply IH]. apply processDocument_run_rel.
Qed.

Hypothesis P_progress : ∀ p r, P r (run_with_progress p r).

Lemma interval_callback_run_rel k st : run_rel P n st (interval_callback k st).
Proof using P_refl P_progress.
  unfold interval_callback.
  destruct (runs st !! k) as [r|] eqn:Hr; [| apply run_rel_refl].
  destruct (r_interval r); [| apply run_rel_refl].
  eapply run_rel_alter with (k := k)
    (g := run_with_progress (r_progress r + interval_increment (r_op r))).
  - intros _ r0. apply P_progress.
  - by destruct (_ <=? _)%Z.
Qed.
End RunRelation.

Lemma upload_loop_runs k st : runs (upload_loop k st) = runs st.
Proof.
  unfold upload_loop. destruct (uploads st !! k) as [u|]; [|done].
  by destruct (u_rest u) as [|[file tmp] rest].
Qed.

Lemma settle_runs n resp st :
  runs (settle n resp st) = runs st
  ∨ runs (settle n resp st) = alter run_settled n (runs st)
  ∨ runs (settle n resp st) = alter run_cleared n (alter run_settled n (runs st)).
Proof.
  unfold settle. destruct (runs st !! n) as [r|]; [| by left].
  destruct (r_pending r); [| by left].
  destruct (r_op r), resp; simpl; auto;
    unfold processDocument_then, reprocessCurrentDocument_then; simpl.
  - destruct (r_current r) as [cur|]; [destruct (String.eqb cur (r_doc r)) |];
      simpl; auto.
Qed.

Lemma same_closure_refl r : same_closure r r.
Proof. by repeat split. Qed.

Lemma same_closure_trans r1 r2 r3 :
  same_closure r1 r2 → same_closure r2 r3 → same_closure r1 r3.
Proof. intros (?&?&?&?) (?&?&?&?). repeat split; congruence. Qed.

Lemma still_pending_refl r : still_pending r r.
Proof. split; [apply same_closure_refl | done]. Qed.

Lemma still_pending_trans r1 r2 r3 :
  still_pending r1 r2 → still_pending r2 r3 → still_pending r1 r3.
Proof.
  intros [C1 E1] [C2 E2]. split; [by eapply same_closure_trans | congruence].
Qed.

Lemma settle_run_rel (P : Run → Run → Prop) n k resp st :
  (∀ r, P r r) → (∀ r1 r2 r3, P r1 r2 → P r2 r3 → P r1 r3) →
  (∀ r, P r (run_cleared r)) → (k = n → ∀ r, P r (run_settled r)) →
  run_rel P n st (settle k resp st).
Proof.
  intros Hrefl Htrans Hcl Hse.
  destruct (settle_runs k resp st) as [E|[E|E]].
  - by apply run_rel_eq.
  - by eapply run_rel_alter.
  - eapply run_rel_trans with (st2 := set_runs (alter run_settled k) st); [done | |].
    + by eapply run_rel_alter.
    + eapply run_rel_alter; [done | | exact E]. intros _. apply Hcl.
Qed.

(** Every event other than the settlement of call [n] relates closure
    [n] before and after by [P]; the settlement of call [n] does so when
    [P] allows [run_settled]. *)
Lemma step_run_rel (P : Run → Run → Prop) n ev st :
  (∀ r, P r r) → (∀ r1 r2 r3, P r1 r2 → P r2 r3 → P r1 r3) →
  (∀ p r, P r (run_with_progress p r)) → (∀ r, P r (run_cleared r)) →
  (∀ resp, ev = ESettle n resp → ∀ r, P r (run_settled r)) →
  run_rel P n st (step ev st).
Proof.
  intros Hrefl Htrans Hpr Hcl Hse.
  destruct ev; simpl.
  - unfold handleFileUpload. destruct newFiles; simpl; [by apply run_rel_refl |].
    apply run_rel_eq; [done |]. by rewrite upload_loop_runs.
  - unfold handleFileUpload_then.
    destruct (uploads st !! k) as [u|]; [| by apply run_rel_refl].
    destruct (u_pending u); [| by apply run_rel_refl].
    eapply run_rel_app; [done |]. rewrite upload_loop_runs. reflexivity.
  - unfold handleFileUpload_catch.
    destruct (uploads st !! k) as [u|]; [| by apply run_rel_refl].
    destruct (u_pending u); [| by apply run_rel_refl].
    apply run_rel_eq; [done |]. by rewrite upload_loop_runs.
  - by apply effect_fold_run_rel.
  - destruct (files st !! i); by apply run_rel_eq.
  - by apply run_rel_eq.
  - unfold reprocessCurrentDocument.
    destruct (currentDocument st); simpl; [| by apply run_rel_refl].
    by eapply run_rel_app.
  - unfold sendToWeaviate.
    destruct (currentDocument st); simpl; [| by apply run_rel_refl].
    destruct (_ || _); simpl; [by apply run_rel_refl |].
    by eapply run_rel_app.
  - by apply interval_callback_run_rel.
  - apply settle_run_rel; try done. intros ->. by eapply Hse.
  - by apply run_rel_eq.
  - destruct (pendingWeaviate st); [by apply run_rel_refl |].
    destruct failure; by apply run_rel_eq.
  - by apply run_rel_eq.
  - destruct (pendingEmbedder st); [by apply run_rel_refl |].
    destruct failure; by apply run_rel_eq.
  - destruct (pendingStatus st); [| by apply run_rel_refl].
    destruct answer as [[w e]|]; by apply run_rel_eq.
Qed.

Lemma step_same_closure n ev st : run_rel same_closure n st (step ev st).
Proof.
  apply step_run_rel;
    [ apply same_closure_refl | apply same_closure_trans
    | by repeat split .. ].
Qed.

Lemma exec_same_closure n evs st : run_rel same_closure n st (exec evs st).
Proof.
  revert st. induction evs as [|ev evs IH]; intros st; simpl.
  - apply run_rel_refl, same_closure_refl.
  - eapply run_rel_trans; [apply same_closure_trans | apply step_same_closure | apply IH].
Qed.

Lemma step_still_pending n ev st :
  (∀ resp, ev ≠ ESettle n resp) → run_rel still_pending n st (step ev st).
Proof.
  intros Hev. apply step_run_rel;
    [ apply still_pending_refl | apply still_pending_trans
    | by repeat split | by repeat split | ].
  intros resp E. by destruct (Hev resp).
Qed.

(** ** What settling a call does *)

Lemma settle_pending n r resp st :
  runs st !! n = Some r → r_pending r = true →
  settle n resp st =
    let st1 := set_runs (alter run_settled n) st in
    match r_op r, resp with
    | OpProcess, ProcessOk c m => processDocument_then n r c m st1
    | OpProcess, Failure msg => processDocument_catch r msg st1
    | OpReprocess, ProcessOk c m => reprocessCurrentDocument_then n r c m st1
    | OpReprocess, Failure msg => reprocessCurrentDocument_catch r msg st1
    | OpIndex, IndexOk s => sendToWeaviate_then n r s st1
    | OpIndex, Failure msg => sendToWeaviate_catch r msg st1
    | _, _ => st
    end.
Proof. intros Hr Hp. unfold settle. by rewrite Hr, Hp. Qed.

Lemma elem_of_map_if p g (l : list FileObj) f' :
  f' ∈ map_if p g l → ∃ f, f ∈ l ∧ f' = if p f then g f else f.
Proof.
  unfold map_if. intros H. apply list_elem_of_fmap in H.
  destruct H as (f & -> & Hf). eauto.
Qed.

Lemma lookup_map_if p g (l : list FileObj) i :
  map_if p g l !! i = (λ f, if p f then g f else f) <$> l !! i.
Proof. unfold map_if. apply list_lookup_fmap. Qed.

(** A fulfilled [/process] call, for [processDocument] and for
    [reprocessCurrentDocument] alike, writes its own chunks and metadata
    into every file record with the closure's id. *)
Lemma process_ok_files n r chunks md st :
  runs st !! n = Some r → r_pending r = true → r_op r ≠ OpIndex →
  files (settle n (ProcessOk chunks md) st)
  = map_if (λ f, String.eqb (f_id f) (r_doc r)) (file_completed chunks md) (files st)
  ∧ processingStatus (settle n (ProcessOk chunks md) st) !! r_doc r
    = Some (ps_running Completed 100).
Proof.
  intros Hr Hp Hop. rewrite (settle_pending n r) by done. cbv zeta.
  destruct (r_op r) eqn:E; [| | done].
  - unfold processDocument_then.
    destruct (r_current r) as [cur|]; [destruct (String.eqb cur (r_doc r)) |];
      simpl; (split; [done | apply lookup_insert_eq]).
  - unfold reprocessCurrentDocument_then. simpl.
    split; [done | apply lookup_insert_eq].
Qed.

Lemma completed_records chunks md doc (l : list FileObj) f' :
  f' ∈ map_if (λ f, String.eqb (f_id f) doc) (file_completed chunks md) l →
  f_id f' = doc →
  f_status f' = Completed ∧ f_chunks f' = chunks ∧ f_metadata f' = Some md.
Proof.
  intros Hin Hid. apply elem_of_map_if in Hin. destruct Hin as (f & _ & ->).
  destruct (String.eqb (f_id f) doc) eqn:E.
  - by repeat split.
  - apply String.eqb_neq in E. done.
Qed.

(** A rejected call records the message under the closure's id. *)
Lemma failure_recorded n r msg st :
  runs st !! n = Some r → r_pending r = true →
  processingStatus (settle n (Failure msg) st) !! r_doc r = Some (ps_failed msg).
Proof.
  intros Hr Hp. rewrite (settle_pending n r) by done. cbv zeta.
  destruct (r_op r); simpl; apply lookup_insert_eq.
Qed.

(** Of the three [catch] blocks only that of [processDocument] writes to
    [files]. *)
Lemma failure_files n r msg st :
  runs st !! n = Some r → r_pending r = true → r_op r ≠ OpProcess →
  files (settle n (Failure msg) st) = files st
  ∧ documentChunks (settle n (Failure msg) st) = documentChunks st
  ∧ indexingStats (settle n (Failure msg) st) = indexingStats st
  ∧ currentDocument (settle n (Failure msg) st) = currentDocument st
  ∧ config (settle n (Failure msg) st) = config st
  ∧ weaviateStatus (settle n (Failure msg) st) = weaviateStatus st
  ∧ embeddingStatus (settle n (Failure msg) st) = embeddingStatus st.
Proof.
  intros Hr Hp Hop. rewrite (settle_pending n r) by done. cbv zeta.
  destruct (r_op r); [done | |]; by repeat split.
Qed.


(** ** [sendToWeaviate] without a connection *)

(** C1, as the code behaves.  When Weaviate or the embedder is not
    ['connected'], [sendToWeaviate] returns at once: it raises nothing (no
    ConnectionError), and the whole state, with the document's status, its
    [indexingStats], [processingStatus] and the list of alerts, is left
    as it was. *)
Theorem sendToWeaviate_not_connected (st : State) :
  weaviateStatus st ≠ "connected" ∨ embeddingStatus st ≠ "connected" →
  sendToWeaviate st = (st, Returned) ∧ step ESendToWeaviate st = st.
Proof.
  intros Hguard.
  assert (sendToWeaviate st = (st, Returned)) as E.
  { unfold sendToWeaviate. destruct (currentDocument st) as [cur|]; [|done].
    destruct Hguard as [H|H]; apply String.eqb_neq in H; rewrite H; simpl; [done |].
    by rewrite orb_true_r. }
  split; [exact E |]. simpl. by rewrite E.
Qed.

Lemma sendToWeaviate_not_connected_witness :
  sendToWeaviate completed_doc = (completed_doc, Returned)
  ∧ step ESendToWeaviate completed_doc = completed_doc.
Proof.
  apply (sendToWeaviate_not_connected completed_doc).
  left. vm_compute. discriminate.
Defined.

(** C1, as stated, fails: with Weaviate disconnected the call on a
    completed document ends normally, without a ConnectionError and without
    an alert. *)
Lemma sendToWeaviate_disconnected_no_error :
  weaviateStatus completed_doc = "disconnected"
  ∧ (f_status <$> find_file "doc-1" completed_doc) = Some Completed
  ∧ (sendToWeaviate completed_doc).2 = Returned
  ∧ (∀ message, (sendToWeaviate completed_doc).2 ≠ Threw "ConnectionError" message)
  ∧ alerts (sendToWeaviate completed_doc).1 = [].
Proof. repeat split. intros message. vm_compute. discriminate. Qed.

(** ** A failed indexing call *)

(** C2, as the code behaves.  When the call of a document that is being
    indexed is rejected, the [catch] block sets the document's entry of
    [processingStatus] to ['error'] with the message.  It does not write to
    [files]: status, chunks, metadata and [indexingStats] of the file
    record are what they were (a record that was ['completed'] still is),
    and a document that could be sent can be sent again as it is. *)
Theorem index_failure_keeps_record (st : State) (n : nat) (r : Run) (message : string) :
  runs st !! n = Some r → r_pending r = true → r_op r = OpIndex →
  let st' := settle n (Failure message) st in
  processingStatus st' !! r_doc r = Some (ps_failed message)
  ∧ files st' = files st
  ∧ documentChunks st' = documentChunks st
  ∧ indexingStats st' = indexingStats st
  ∧ (sendToWeaviate st').2 = (sendToWeaviate st).2.
Proof.
  intros Hr Hp Hop st'.
  destruct (failure_files n r message st Hr Hp) as (Hf & Hc & Hi & Hcur & _ & Hw & He).
  { by rewrite Hop. }
  split; [by apply failure_recorded |].
  repeat (split; [done |]).
  subst st'. unfold sendToWeaviate. rewrite Hcur, Hw, He.
  destruct (currentDocument st); [| done]. by destruct (_ || _).
Qed.

Lemma index_failure_keeps_record_witness :
  let st := step ESendToWeaviate connected_doc in
  let st' := settle 1 (Failure "Network Error") st in
  processingStatus st' !! "doc-1" = Some (ps_failed "Network Error")
  ∧ files st' = files st
  ∧ documentChunks st' = documentChunks st
  ∧ indexingStats st' = indexingStats st
  ∧ (sendToWeaviate st').2 = (sendToWeaviate st).2.
Proof.
  cbv zeta.
  refine (index_failure_keeps_record (step ESendToWeaviate connected_doc) 1
            {| r_op := OpIndex; r_doc := "doc-1"; r_config := DEFAULT_CONFIG;
               r_current := Some "doc-1"; r_progress := 0;
               r_interval := true; r_pending := true |}
            "Network Error" _ _ _); reflexivity.
Defined.

(** C2, as stated, fails.  The state ['indexing'] is only ever written to
    [processingStatus].  A completed document is sent to Weaviate, is in
    state ['indexing'], the call is rejected, and the document's status
    there is ['error'], not ['completed'].  Nothing is reverted in [files]
    either: when the document is sent a second time after a successful
    indexing (the button still shows for the selection made earlier) and
    that call is rejected, its file record stays ['indexed']. *)
Lemma index_failure_status_error :
  let failed_once :=
    exec [ESendToWeaviate; ESettle 1 (Failure "Network Error")] connected_doc in
  let failed_again :=
    exec [ESendToWeaviate; ESettle 1 (IndexOk sample_stats);
          ESendToWeaviate; ESettle 2 (Failure "Network Error")] connected_doc in
  (f_status <$> find_file "doc-1" connected_doc) = Some Completed
  ∧ (ps_status <$> processingStatus (exec [ESendToWeaviate] connected_doc) !! "doc-1")
    = Some Indexing
  ∧ processingStatus failed_once !! "doc-1"
    = Some {| ps_status := Error; ps_progress := None;
              ps_error := Some "Network Error" |}
  ∧ (ps_status <$> processingStatus failed_again !! "doc-1") = Some Error
  ∧ (f_status <$> find_file "doc-1" failed_again) = Some Indexed.
Proof. by vm_compute. Qed.

(** ** A successful reprocess *)

(** C3.  Once [reprocessCurrentDocument] has been called for the current
    document, whatever happens in between, the fulfilment of its call
    leaves every file record of that document with status ['completed']
    (hence not ['indexed'], whatever the status was before), with exactly
    the chunks and the metadata of the response; the document's
    [processingStatus] is ['completed'] at 100 and the displayed chunks
    are the new ones. *)
Theorem reprocess_success_completed
    (st : State) (cur : FileObj) (evs : list Event)
    (chunks : list Chunk) (metadata : Metadata) :
  currentDocument st = Some cur →
  let n := length (runs st) in
  let st1 := exec evs (reprocessCurrentDocument st).1 in
  (∀ r, runs st1 !! n = Some r → r_pending r = true) →
  let st' := settle n (ProcessOk chunks metadata) st1 in
  (∀ f', f' ∈ files st' → f_id f' = f_id cur →
         f_status f' = Completed ∧ f_status f' ≠ Indexed
         ∧ f_chunks f' = chunks ∧ f_metadata f' = Some metadata)
  ∧ (∀ i f, files st1 !! i = Some f → f_id f = f_id cur →
            files st' !! i = Some (file_completed chunks metadata f))
  ∧ processingStatus st' !! f_id cur = Some (ps_running Completed 100)
  ∧ documentChunks st' = chunks.
Proof.
  intros Hcur n st1 Hpend st'.
  assert (runs (reprocessCurrentDocument st).1 !! n
          = Some {| r_op := OpReprocess; r_doc := f_id cur; r_config := config st;
                    r_current := Some (f_id cur); r_progress := 0;
                    r_interval := true; r_pending := true |}) as Hnew.
  { unfold reprocessCurrentDocument. rewrite Hcur. simpl.
    rewrite lookup_app_r by done. by rewrite Nat.sub_diag. }
  destruct (exec_same_closure n evs _ _ Hnew) as (r & Hr & Hop & Hdoc & _ & _).
  simpl in Hop, Hdoc. fold st1 in Hr.
  specialize (Hpend r Hr).
  destruct (process_ok_files n r chunks metadata st1 Hr Hpend) as [Hfiles Hps].
  { by rewrite Hop. }
  fold st' in Hfiles, Hps. rewrite Hdoc in Hfiles, Hps.
  split; [| split; [| split]].
  - intros f' Hin Hid. rewrite Hfiles in Hin.
    destruct (completed_records _ _ _ _ _ Hin Hid) as (Hs & Hc & Hm).
    rewrite Hs. by repeat split.
  - intros i f Hi Hid. rewrite Hfiles, lookup_map_if, Hi. simpl.
    apply String.eqb_eq in Hid. by rewrite Hid.
  - exact Hps.
  - subst st'. rewrite (settle_pending n r) by done. cbv zeta. by rewrite Hop.
Qed.

(** The document has been indexed; it is then reprocessed, with two ticks
    of the interval before the answer. *)
Lemma reprocess_success_completed_witness :
  let st1 := exec [EInterval 2; EInterval 2] (reprocessCurrentDocument indexed_doc).1 in
  let st' := settle (length (runs indexed_doc)) (ProcessOk chunks_v2 metadata_v1) st1 in
  (f_status <$> currentDocument indexed_doc) = Some Indexed
  ∧ (∀ f', f' ∈ files st' → f_id f' = "doc-1" →
           f_status f' = Completed ∧ f_status f' ≠ Indexed
           ∧ f_chunks f' = chunks_v2 ∧ f_metadata f' = Some metadata_v1)
  ∧ processingStatus st' !! "doc-1" = Some (ps_running Completed 100)
  ∧ documentChunks st' = chunks_v2.
Proof.
  cbv zeta. split; [vm_compute; reflexivity |].
  assert (runs (exec [EInterval 2; EInterval 2] (reprocessCurrentDocument indexed_doc).1)
            !! length (runs indexed_doc)
          = Some {| r_op := OpReprocess; r_doc := "doc-1"; r_config := DEFAULT_CONFIG;
                    r_current := Some "doc-1"; r_progress := 20;
                    r_interval := true; r_pending := true |}) as Hrun
    by (vm_compute; reflexivity).
  destruct (reprocess_success_completed indexed_doc
              (file_indexed sample_stats
                 (file_completed chunks_v1 metadata_v1
                    (file_uploaded "doc-1" (file_new "rapport.txt" "file-1-k3x9"))))
              [EInterval 2; EInterval 2] chunks_v2 metadata_v1)
    as (H1 & _ & H3 & H4).
  - vm_compute; reflexivity.
  - intros r Hr. rewrite Hrun in Hr. by injection Hr as <-.
  - split; [exact H1 | split; [exact H3 | exact H4]].
Defined.

(** ** Errors and the leaked interval *)

(** What the three [catch] blocks do when they run: the message is put in
    the document's [processingStatus] entry with status ['error']. *)
Lemma failure_status_error n r message st :
  runs st !! n = Some r → r_pending r = true →
  let st' := settle n (Failure message) st in
  (ps_status <$> processingStatus st' !! r_doc r) = Some Error
  ∧ (processingStatus st' !! r_doc r ≫= ps_error) = Some message.
Proof.
  intros Hr Hp st'. subst st'. by rewrite (failure_recorded n r message st Hr Hp).
Qed.

(** C4 fails on the code.  [clearInterval] is only reached when the
    call is fulfilled, so after a rejection the interval keeps firing and
    its next tick overwrites the ['error'] entry; the [catch] blocks of
    [reprocessCurrentDocument] and [sendToWeaviate] do not write to [files]
    as [processDocument]'s does.  After a failed reprocess and one tick the
    document reads ['reprocessing'] at 10 in [processingStatus] and
    ['completed'] without an error in [files]: the message is nowhere. *)
Theorem reprocess_error_overwritten :
  let failed := exec failed_reprocess completed_doc in
  let later := step (EInterval 1) failed in
  processingStatus failed !! "doc-1" = Some (ps_failed "Network Error")
  ∧ processingStatus later !! "doc-1" = Some (ps_running Reprocessing 10)
  ∧ (f_status <$> find_file "doc-1" later) = Some Completed
  ∧ (find_file "doc-1" later ≫= f_error) = None
  ∧ alerts later = [].
Proof. by vm_compute. Qed.


(** ** Reprocessing with any configuration *)

(** C5, as the code behaves.  The front end does not look at the chunking
    parameters: for every configuration, valid or not,
    [reprocessCurrentDocument] marks the current document ['reprocessing']
    at 0 and posts [config] as it is, without raising anything.  A
    rejection by the back end stores no chunk: the file records and the
    displayed chunks stay as before the request, and
    [processingStatus] holds ['error'] with the message. *)
Theorem reprocess_forwards_config (st : State) (cur : FileObj) :
  currentDocument st = Some cur →
  let n := length (runs st) in
  let st1 := (reprocessCurrentDocument st).1 in
  (reprocessCurrentDocument st).2 = Suspended
  ∧ processingStatus st1 !! f_id cur = Some (ps_running Reprocessing 0)
  ∧ runs st1 = runs st ++ [ {| r_op := OpReprocess; r_doc := f_id cur;
                               r_config := config st;
                               r_current := Some (f_id cur); r_progress := 0;
                               r_interval := true; r_pending := true |} ]
  ∧ files st1 = files st
  ∧ (∀ message,
       let st2 := settle n (Failure message) st1 in
       files st2 = files st ∧ documentChunks st2 = documentChunks st
       ∧ processingStatus st2 !! f_id cur = Some (ps_failed message)).
Proof.
  intros Hcur n st1.
  assert (runs st1 = runs st ++ [ {| r_op := OpReprocess; r_doc := f_id cur;
                               r_config := config st;
                               r_current := Some (f_id cur); r_progress := 0;
                               r_interval := true; r_pending := true |} ]) as Hruns.
  { subst st1. unfold reprocessCurrentDocument. by rewrite Hcur. }
  assert (files st1 = files st ∧ documentChunks st1 = documentChunks st) as [Hf Hc].
  { subst st1. unfold reprocessCurrentDocument. by rewrite Hcur. }
  split; [| split; [| split; [exact Hruns | split; [exact Hf |]]]].
  - unfold reprocessCurrentDocument. by rewrite Hcur.
  - subst st1. unfold reprocessCurrentDocument. rewrite Hcur. simpl.
    apply lookup_insert_eq.
  - intros message st2.
    assert (runs st1 !! n = Some {| r_op := OpReprocess; r_doc := f_id cur;
                               r_config := config st;
                               r_current := Some (f_id cur); r_progress := 0;
                               r_interval := true; r_pending := true |}) as Hn.
    { rewrite Hruns, lookup_app_r by done. by rewrite Nat.sub_diag. }
    destruct (failure_files n _ message st1 Hn eq_refl) as (Hf2 & Hc2 & _); [done |].
    fold st2 in Hf2, Hc2. rewrite Hf2, Hc2, Hf, Hc.
    repeat split. apply (failure_recorded n _ message st1 Hn eq_refl).
Qed.

Lemma reprocess_forwards_config_witness :
  (valid_config <$> chunkConfig_of (config slider_min_doc)) = Some false
  ∧ (reprocessCurrentDocument slider_min_doc).2 = Suspended
  ∧ (r_config <$> runs (reprocessCurrentDocument slider_min_doc).1 !! 1%nat)
    = Some (config slider_min_doc).
Proof.
  split; [reflexivity |].
  destruct (reprocess_forwards_config slider_min_doc
              (file_completed chunks_v1 metadata_v1
                 (file_uploaded "doc-1" (file_new "rapport.txt" "file-1-k3x9")))
              eq_refl) as (H1 & _ & H3 & _).
  split; [exact H1 |]. rewrite H3. reflexivity.
Defined.

(** C5, as stated, fails.  With the chunk-size slider at its minimum the
    configuration has [chunkSize = minChunkSize = 200], which violates
    [chunkSize > minChunkSize]; the same holds for the spec's
    [{chunkSize = 50, minChunkSize = 80}].  Reprocessing is not rejected:
    nothing is raised, the document goes from ['completed'] to
    ['reprocessing'] and the request is sent with that configuration; when
    the back end answers with chunks they are stored. *)
Lemma invalid_config_not_rejected :
  let st50 := exec [EConfigChange "chunking" "chunkSize" (JNum 50);
                    EConfigChange "chunking" "minChunkSize" (JNum 80)] completed_doc in
  (valid_config <$> chunkConfig_of (config slider_min_doc)) = Some false
  ∧ (valid_config <$> chunkConfig_of (config st50)) = Some false
  ∧ processingStatus slider_min_doc !! "doc-1" = Some (ps_running Completed 100)
  ∧ (reprocessCurrentDocument slider_min_doc).2 = Suspended
  ∧ (reprocessCurrentDocument st50).2 = Suspended
  ∧ processingStatus (reprocessCurrentDocument slider_min_doc).1 !! "doc-1"
    = Some (ps_running Reprocessing 0)
  ∧ processingStatus (reprocessCurrentDocument st50).1 !! "doc-1"
    = Some (ps_running Reprocessing 0)
  ∧ (runs (reprocessCurrentDocument st50).1 !! 1%nat
       ≫= λ r, config_get (r_config r) "chunking" "minChunkSize") = Some (JNum 80)
  ∧ (f_chunks <$> find_file "doc-1"
       (exec [EReprocess; ESettle 1 (ProcessOk chunks_v2 metadata_v1)] st50))
    = Some chunks_v2.
Proof. by vm_compute. Qed.

(** ** Concurrent runs for one document *)

(** C6, as the code behaves.  No run is ever cancelled or superseded: a
    pending call stays pending, with the document and the configuration it
    was started with, through every event other than its own settlement,
    in particular through new process, reprocess or index requests for the
    same document.  And every fulfilled [/process] call, whenever it was
    requested, writes its own chunks and metadata into the document: the
    call that is answered last wins. *)
Theorem runs_not_superseded (st : State) (n : nat) (r : Run) :
  runs st !! n = Some r → r_pending r = true →
  (∀ ev, (∀ resp, ev ≠ ESettle n resp) →
         ∃ r', runs (step ev st) !! n = Some r' ∧ r_pending r' = true
               ∧ r_op r' = r_op r ∧ r_doc r' = r_doc r ∧ r_config r' = r_config r)
  ∧ (r_op r ≠ OpIndex →
     ∀ chunks metadata f',
       f' ∈ files (settle n (ProcessOk chunks metadata) st) → f_id f' = r_doc r →
       f_status f' = Completed ∧ f_chunks f' = chunks ∧ f_metadata f' = Some metadata).
Proof.
  intros Hr Hp. split.
  - intros ev Hev.
    destruct (step_still_pending n ev st Hev r Hr) as (r' & Hr' & (Hop & Hdoc & Hcfg & _) & Hp').
    exists r'. rewrite Hp' , Hp. by repeat split.
  - intros Hop chunks metadata f' Hin Hid.
    destruct (process_ok_files n r chunks metadata st Hr Hp Hop) as [Hfiles _].
    rewrite Hfiles in Hin. by eapply completed_records.
Qed.

Lemma runs_not_superseded_witness :
  let st := exec [EReprocess] completed_doc in
  (r_pending <$> runs (step EReprocess st) !! 1%nat) = Some true
  ∧ (f_chunks <$> find_file "doc-1" (settle 1 (ProcessOk chunks_v2 metadata_v1) st))
    = Some chunks_v2.
Proof.
  cbv zeta.
  destruct (runs_not_superseded (exec [EReprocess] completed_doc) 1
              {| r_op := OpReprocess; r_doc := "doc-1"; r_config := DEFAULT_CONFIG;
                 r_current := Some "doc-1"; r_progress := 0;
                 r_interval := true; r_pending := true |}
              eq_refl eq_refl) as [Hkeep Hwrite].
  split.
  - destruct (Hkeep EReprocess) as (r' & Hr' & Hp' & _); [done |].
    by rewrite Hr', <- Hp'.
  - reflexivity.
Defined.

(** C6, as stated, fails.  The document is reprocessed, the chunk size is
    changed to 400 and the document is reprocessed again while the first
    call is still pending: two runs for ["doc-1"] are in flight.  The
    second call is answered first, then the first: the document ends with
    the chunks of the first request, made with chunk size 800, although
    the configuration requested last has chunk size 400. *)
Lemma stale_result_overwrites :
  let requested := exec overtaken_requests completed_doc in
  let final := exec overtaken_answers requested in
  ((λ r, (r_doc r, r_pending r)) <$> runs requested !! 1%nat) = Some ("doc-1", true)
  ∧ ((λ r, (r_doc r, r_pending r)) <$> runs requested !! 2%nat) = Some ("doc-1", true)
  ∧ (runs requested !! 1%nat ≫= λ r, config_get (r_config r) "chunking" "chunkSize")
    = Some (JNum 800)
  ∧ (runs requested !! 2%nat ≫= λ r, config_get (r_config r) "chunking" "chunkSize")
    = Some (JNum 400)
  ∧ config_get (config final) "chunking" "chunkSize" = Some (JNum 400)
  ∧ (f_chunks <$> find_file "doc-1" final) = Some chunks_v1
  ∧ documentChunks final = chunks_v1.
Proof. by vm_compute. Qed.


(** A freshly uploaded file is processed twice at once: [handleFileUpload]
    calls [processDocument] itself, and the effect on [files] calls it again
    for the record it finds ['pending']. *)
Example upload_starts_two_runs :
  (λ r, (r_op r, r_doc r, r_pending r))
    <$> runs (exec [ EFileUpload [("rapport.txt", "file-1-k3x9")];
                     EUploaded 0 "doc-1"; EEffectPending ] initial_state)
  = [ (OpProcess, "doc-1", true); (OpProcess, "doc-1", true) ].
Proof. reflexivity. Qed.

(** ** Progress values *)

Lemma upload_loop_processingStatus k st :
  processingStatus (upload_loop k st) = processingStatus st.
Proof.
  unfold upload_loop. destruct (uploads st !! k) as [u|]; [|done].
  by destruct (u_rest u) as [|[file tmp] rest].
Qed.

Lemma effect_fold_table c cur (l : list FileObj) st doc :
  processingStatus (foldl (λ s f, (processDocument c cur (f_id f) s).1) st l) !! doc
  = processingStatus st !! doc
  ∨ processingStatus (foldl (λ s f, (processDocument c cur (f_id f) s).1) st l) !! doc
    = Some (ps_running Processing 0).
Proof.
  revert st. induction l as [|f l IH]; intros st; cbn [foldl]; [by left |].
  destruct (IH (processDocument c cur (f_id f) st).1) as [E|E]; [| by right].
  rewrite E. simpl.
  destruct (decide (f_id f = doc)) as [->|Hne].
  - right. apply lookup_insert_eq.
  - left. by apply lookup_insert_ne.
Qed.

(** One case analysis for all that follows: after an event the entry of a
    document is the one it had, or one of the entries of [written]. *)
Lemma step_table_cases ev st doc :
  processingStatus (step ev st) !! doc = processingStatus st !! doc
  ∨ ∃ e, processingStatus (step ev st) !! doc = Some e ∧ written ev st doc e.
Proof.
  assert (∀ s, in_flight s →
            written ev st doc (ps_running s 0)) as Hstart by (by constructor).
  destruct ev; simpl; try by left.
  - unfold handleFileUpload. destruct newFiles; simpl; [by left |].
    rewrite upload_loop_processingStatus. by left.
  - unfold handleFileUpload_then.
    destruct (uploads st !! k) as [u|]; [| by left].
    destruct (u_pending u); [| by left].
    rewrite upload_loop_processingStatus. simpl.
    destruct (decide (uploadResult_id = doc)) as [->|Hne].
    + right. eexists. split; [apply lookup_insert_eq | apply Hstart; by left].
    + left. by apply lookup_insert_ne.
  - unfold handleFileUpload_catch.
    destruct (uploads st !! k) as [u|]; [| by left].
    destruct (u_pending u); [| by left].
    rewrite upload_loop_processingStatus. by left.
  - destruct (effect_fold_table (config st) (f_id <$> currentDocument st)
                (filter (λ f, f_status f = Pending) (files st)) st doc) as [E|E].
    + by left.
    + right. eexists. split; [exact E | apply Hstart; by left].
  - destruct (files st !! i); by left.
  - unfold reprocessCurrentDocument.
    destruct (currentDocument st) as [cur|]; simpl; [| by left].
    destruct (decide (f_id cur = doc)) as [->|Hne].
    + right. eexists. split; [apply lookup_insert_eq | apply Hstart; right; by left].
    + left. by apply lookup_insert_ne.
  - unfold sendToWeaviate.
    destruct (currentDocument st) as [cur|]; simpl; [| by left].
    destruct (_ || _); simpl; [by left |].
    destruct (decide (f_id cur = doc)) as [->|Hne].
    + right. eexists. split; [apply lookup_insert_eq | apply Hstart; right; by right].
    + left. by apply lookup_insert_ne.
  - unfold interval_callback.
    destruct (runs st !! n) as [r|] eqn:Hr; [| by left].
    destruct (r_interval r); [| by left]. cbv zeta.
    destruct (Z.leb_spec (r_progress r + interval_increment (r_op r)) 90) as [Hle|Hgt];
      simpl; [| by left].
    destruct (decide (r_doc r = doc)) as [Hd|Hne].
    + right. eexists. split; [rewrite Hd; apply lookup_insert_eq |].
      by eapply written_tick.
    + left. by apply lookup_insert_ne.
  - unfold settle.
    destruct (runs st !! n) as [r|] eqn:Hr; [| by left].
    destruct (r_pending r) eqn:Hp; [| by left]. cbv zeta.
    destruct (decide (r_doc r = doc)) as [Hd|Hne].
    + destruct (r_op r) eqn:Hop, resp; simpl; try (by left); right; eexists;
        (split;
         [ unfold processDocument_then;
           try (destruct (r_current r) as [c0|];
                [destruct (String.eqb c0 (r_doc r)) |]); simpl;
           rewrite Hd; apply lookup_insert_eq | ]).
      all: try (eapply written_failed; by eauto).
      all: eapply written_done; eauto; rewrite Hop; done.
    + left.
      destruct (r_op r), resp; simpl; try done;
        unfold processDocument_then;
        try (destruct (r_current r) as [c0|];
             [destruct (String.eqb c0 (r_doc r)) |]); simpl;
        by apply lookup_insert_ne.
  - destruct (pendingWeaviate st); [by left |]. destruct failure; by left.
  - destruct (pendingEmbedder st); [by left |]. destruct failure; by left.
  - destruct (pendingStatus st); [| by left]. destruct answer as [[w e]|]; by left.
Qed.

Lemma written_entry_ok ev st doc e :
  runs_ok st → written ev st doc e → entry_ok e.
Proof.
  intros Hruns [s Hs | n r _ Hr _ Hle | n r msg _ _ _ _ | n r resp s _ _ _ _ _ Hs].
  - destruct Hs as [-> | [-> | ->]]; exists 0; by split.
  - pose proof (Forall_lookup_1 _ _ _ _ Hruns Hr) as Hge. simpl in Hge.
    assert (0 ≤ interval_increment (r_op r)) by (destruct (r_op r); simpl; lia).
    destruct (r_op r); simpl; eexists; (split; [reflexivity | simpl in *; lia]).
  - reflexivity.
  - destruct Hs as [-> | ->]; reflexivity.
Qed.

Lemma step_table_ok ev st : runs_ok st → table_ok st → table_ok (step ev st).
Proof.
  intros Hruns Htab. apply map_Forall_lookup_2. intros doc e He.
  destruct (step_table_cases ev st doc) as [E|(e' & E & Hw)].
  - rewrite E in He. by eapply (map_Forall_lookup_1 _ _ _ _ Htab).
  - rewrite E in He. inversion He; subst. by eapply written_entry_ok.
Qed.

Lemma runs_ok_app st st' extra :
  runs st' = runs st ++ extra → Forall (λ r, r_progress r = 0) extra →
  runs_ok st → runs_ok st'.
Proof.
  unfold runs_ok. intros -> Hx H. apply Forall_app_2; [done |].
  eapply Forall_impl; [exact Hx |]. simpl. intros r ->. done.
Qed.

Lemma runs_ok_alter (g : Run → Run) k st st' :
  runs st' = alter g k (runs st) →
  (∀ r, runs st !! k = Some r → 0 ≤ r_progress r → 0 ≤ r_progress (g r)) →
  runs_ok st → runs_ok st'.
Proof. unfold runs_ok. intros -> Hg H. by apply Forall_alter. Qed.

Lemma runs_ok_eq st st' : runs st' = runs st → runs_ok st → runs_ok st'.
Proof. unfold runs_ok. by intros ->. Qed.

Lemma effect_fold_runs_ok c cur (l : list FileObj) st :
  runs_ok st → runs_ok (foldl (λ s f, (processDocument c cur (f_id f) s).1) st l).
Proof.
  revert st. induction l as [|f l IH]; intros st H; simpl; [done |].
  apply IH. eapply runs_ok_app; [reflexivity | | exact H].
  by apply Forall_singleton.
Qed.

Lemma step_runs_ok ev st : runs_ok st → runs_ok (step ev st).
Proof.
  intros H. destruct ev; simpl; try done.
  - unfold handleFileUpload. destruct newFiles; simpl; [done |].
    eapply runs_ok_eq; [| exact H]. by rewrite upload_loop_runs.
  - unfold handleFileUpload_then.
    destruct (uploads st !! k) as [u|]; [| done].
    destruct (u_pending u); [| done].
    eapply runs_ok_app; [rewrite upload_loop_runs; reflexivity | | exact H].
    by apply Forall_singleton.
  - unfold handleFileUpload_catch.
    destruct (uploads st !! k) as [u|]; [| done].
    destruct (u_pending u); [| done].
    eapply runs_ok_eq; [| exact H]. by rewrite upload_loop_runs.
  - by apply effect_fold_runs_ok.
  - by destruct (files st !! i).
  - unfold reprocessCurrentDocument.
    destruct (currentDocument st); simpl; [| done].
    eapply runs_ok_app; [reflexivity | | exact H]. by apply Forall_singleton.
  - unfold sendToWeaviate.
    destruct (currentDocument st); simpl; [| done].
    destruct (_ || _); simpl; [done |].
    eapply runs_ok_app; [reflexivity | | exact H]. by apply Forall_singleton.
  - unfold interval_callback.
    destruct (runs st !! n) as [r|] eqn:Hr; [| done].
    destruct (r_interval r); [| done]. cbv zeta.
    eapply runs_ok_alter with (k := n)
      (g := run_with_progress (r_progress r + interval_increment (r_op r)));
      [by destruct (_ <=? _)%Z | | exact H].
    intros r0 _ _. simpl.
    pose proof (Forall_lookup_1 _ _ _ _ H Hr) as Hge. simpl in Hge.
    destruct (r_op r); simpl; lia.
  - destruct (settle_runs n resp st) as [E|[E|E]].
    + by eapply runs_ok_eq.
    + eapply runs_ok_alter; [exact E | | exact H]. by intros r _.
    + eapply (runs_ok_alter run_cleared n (set_runs (alter run_settled n) st));
        [exact E | by intros r _ |].
      eapply (runs_ok_alter run_settled n st);
        [reflexivity | by intros r _ | exact H].
  - destruct (pendingWeaviate st); [done |]. by destruct failure.
  - destruct (pendingEmbedder st); [done |]. by destruct failure.
  - destruct (pendingStatus st); [| done]. by destruct answer as [[w e]|].
Qed.

Lemma exec_ok evs st :
  runs_ok st → table_ok st → runs_ok (exec evs st) ∧ table_ok (exec evs st).
Proof.
  revert st. induction evs as [|ev evs IH]; intros st Hr Ht; simpl; [done |].
  apply IH; [by apply step_runs_ok | by apply step_table_ok].
Qed.

Lemma initial_ok : runs_ok initial_state ∧ table_ok initial_state.
Proof. split; [constructor | apply map_Forall_empty]. Qed.

Lemma entry_ok_bounds e :
  entry_ok e →
  (∀ p, ps_progress e = Some p → 0 ≤ p ≤ 100)
  ∧ (in_flight (ps_status e) → ∃ p, ps_progress e = Some p ∧ 0 ≤ p ≤ 90)
  ∧ (ps_progress e = Some 100 ↔ ps_status e = Completed ∨ ps_status e = Indexed).
Proof.
  unfold entry_ok, in_flight. destruct e as [s pr er]; simpl.
  destruct s; intros H; try done.
  1-3: destruct H as (p & -> & Hp);
       (split; [intros q [= <-]; lia |]);
       (split; [intros _; by exists p |]);
       (split; [intros [= ->]; lia | intros [?|?]; done]).
  1-2: subst pr;
       (split; [intros q [= <-]; lia |]);
       (split; [intros [?|[?|?]]; done |]);
       (split; [intros _; auto | done]).
  subst pr. split; [done |]. split; [intros [?|[?|?]]; done |].
  split; [done | intros [?|?]; done].
Qed.

(** C10.  In every state the component can reach, each entry of
    [processingStatus] that has a progress has it in [0,100]; an entry
    that shows a run in flight (['processing'], ['reprocessing'],
    ['indexing']) has a progress of at most 90; the progress is 100
    exactly in the entries ['completed'] and ['indexed'].  The fulfilment
    of a run's call sets the document's progress to 100, and no other
    event makes a progress 100; an entry written by an interval callback
    shows a run in flight with a progress of at most 90. *)
Theorem progress_bounds (evs : list Event) :
  let st := exec evs initial_state in
  (∀ doc e, processingStatus st !! doc = Some e →
     (∀ p, ps_progress e = Some p → 0 ≤ p ≤ 100)
     ∧ (in_flight (ps_status e) → ∃ p, ps_progress e = Some p ∧ 0 ≤ p ≤ 90)
     ∧ (ps_progress e = Some 100 ↔ ps_status e = Completed ∨ ps_status e = Indexed))
  ∧ (∀ n r resp, runs st !! n = Some r → r_pending r = true → answers (r_op r) resp →
       (processingStatus (settle n resp st) !! r_doc r ≫= ps_progress) = Some 100)
  ∧ (∀ ev doc e', processingStatus (step ev st) !! doc = Some e' →
       ps_progress e' = Some 100 →
       processingStatus st !! doc = Some e'
       ∨ ∃ n r resp, ev = ESettle n resp ∧ answers (r_op r) resp
                     ∧ runs st !! n = Some r ∧ r_pending r = true ∧ r_doc r = doc)
  ∧ (∀ n doc e', processingStatus (step (EInterval n) st) !! doc = Some e' →
       processingStatus st !! doc = Some e'
       ∨ in_flight (ps_status e') ∧ ∃ p, ps_progress e' = Some p ∧ 0 ≤ p ≤ 90).
Proof.
  intros st.
  destruct (exec_ok evs initial_state) as [Hruns Htab]; [apply initial_ok .. |].
  fold st in Hruns, Htab.
  split; [| split; [| split]].
  - intros doc e He. apply entry_ok_bounds.
    by eapply (map_Forall_lookup_1 _ _ _ _ Htab).
  - intros n r resp Hr Hp Hans.
    rewrite (settle_pending n r) by done. cbv zeta.
    destruct (r_op r), resp; simpl in Hans; try done; simpl;
      unfold processDocument_then;
      try (destruct (r_current r) as [c0|]; [destruct (String.eqb c0 (r_doc r)) |]);
      simpl; by rewrite lookup_insert_eq.
  - intros ev doc e' He' H100.
    destruct (step_table_cases ev st doc) as [E|(e & E & Hw)].
    + left. by rewrite <- E.
    + rewrite E in He'. inversion He'; subst e'.
      destruct Hw as [s Hs | n r _ _ _ Hle | n r msg _ _ _ _ | n r resp s Hev Hans Hr Hp Hd _];
        simpl in H100; try done.
      * inversion H100; lia.
      * right. by exists n, r, resp.
  - intros n doc e' He'.
    destruct (step_table_cases (EInterval n) st doc) as [E|(e & E & Hw)].
    + left. by rewrite <- E.
    + right. rewrite E in He'. inversion He'; subst e'.
      pose proof (written_entry_ok _ _ _ _ Hruns Hw) as Hok.
      destruct Hw as [s Hs | k r _ _ _ _ | k r msg Hev _ _ _ | k r resp s Hev _ _ _ _ _];
        try discriminate.
      * split; [exact Hs | exists 0; by split].
      * destruct (r_op r); simpl in Hok |- *;
          (split; [unfold in_flight; auto | exact Hok]).
Qed.

Lemma progress_bounds_witness :
  let st := exec ticking_reprocess initial_state in
  processingStatus st !! "doc-1" = Some (ps_running Reprocessing 20)
  ∧ (∃ p, Some 20 = Some p ∧ 0 ≤ p ≤ 90)
  ∧ (processingStatus (settle 1 (ProcessOk chunks_v2 metadata_v1) st) !! "doc-1"
       ≫= ps_progress) = Some 100.
Proof.
  cbv zeta.
  destruct (progress_bounds ticking_reprocess) as (Hinv & Hdone & _ & _).
  cbv zeta in Hinv, Hdone.
  assert (processingStatus (exec ticking_reprocess initial_state) !! "doc-1"
          = Some (ps_running Reprocessing 20)) as He by (vm_compute; reflexivity).
  split; [exact He |]. split.
  - destruct (Hinv "doc-1" (ps_running Reprocessing 20) He) as (_ & H & _).
    apply H. right. by left.
  - apply (Hdone 1%nat
      {| r_op := OpReprocess; r_doc := "doc-1"; r_config := DEFAULT_CONFIG;
         r_current := Some "doc-1"; r_progress := 20;
         r_interval := true; r_pending := true |}
      (ProcessOk chunks_v2 metadata_v1)); [vm_compute; reflexivity | reflexivity | exact I].
Defined.


(** ** The fixed strategy *)

Lemma sliding_windows_spec fuel len width stride start :
  0 < stride → stride ≤ width → start < len →
  (1 ≤ fuel)%nat → len - (start + width) ≤ (Z.of_nat fuel - 1) * stride →
  (∀ i s e, sliding_windows fuel len width stride start !! i = Some (s, e) →
     s = start + Z.of_nat i * stride ∧ e = Z.min (s + width) len ∧ s < len)
  ∧ ∃ s, last (sliding_windows fuel len width stride start) = Some (s, len).
Proof.
  intros Hstride Hwidth. revert start.
  induction fuel as [|fuel IH]; intros start Hstart Hfuel Henough; [lia |].
  cbn [sliding_windows].
  destruct (Z.leb_spec len (start + width)) as [Hfinal|Hmore].
  - split; [| by exists start].
    intros [|i] s e Hi; [| done]. inversion Hi; subst. lia.
  - destruct (IH (start + stride)) as [Hall (s' & Hlast)]; [lia | nia | nia |].
    split.
    + intros [|i] s e Hi.
      * inversion Hi; subst. lia.
      * destruct (Hall i s e Hi) as (-> & -> & Hlt). lia.
    + exists s'. rewrite last_cons, Hlast. done.
Qed.

Lemma merge_short_tail_snoc minSize before p s e :
  merge_short_tail minSize (before ++ [p; (s, e)])
  = if e - s <? minSize then before ++ [(p.1, e)] else before ++ [p; (s, e)].
Proof.
  unfold merge_short_tail. rewrite reverse_app.
  change (reverse [p; (s, e)]) with [(s, e); p].
  destruct p as [ps pe]. cbn [app fst].
  destruct (e - s <? minSize); [| done].
  by rewrite reverse_cons, reverse_involutive.
Qed.

Lemma string_length_zero (text : string) : String.length text = 0%nat → text = "".
Proof. by destruct text. Qed.

Lemma scenario1_offsets :
  fixed_offsets 250 scenario1_config = [(0, 100); (80, 180); (160, 250)].
Proof. reflexivity. Qed.





(** * Further properties of the component *)

(** ** Composing configuration changes *)

Lemma handleConfigChange_twice s k1 k2 v1 v2 (c : Config) :
  handleConfigChange s k1 v1 (handleConfigChange s k2 v2 c)
  = <[s := <[k1 := v1]> (<[k2 := v2]> (default ∅ (c !! s)))]> c.
Proof.
  unfold handleConfigChange. rewrite lookup_insert_eq. simpl.
  by rewrite insert_insert_eq.
Qed.

(** X1.  Changes of two different fields can be made in either order;
    of two changes of the same field the later one stands alone; and
    writing to a field the value it already has changes nothing. *)
Theorem handleConfigChange_compose (c : Config) (s1 k1 s2 k2 : string) (v1 v2 : JVal) :
  ((s1, k1) ≠ (s2, k2) →
     handleConfigChange s1 k1 v1 (handleConfigChange s2 k2 v2 c)
     = handleConfigChange s2 k2 v2 (handleConfigChange s1 k1 v1 c))
  ∧ handleConfigChange s1 k1 v2 (handleConfigChange s1 k1 v1 c)
    = handleConfigChange s1 k1 v2 c
  ∧ (config_get c s1 k1 = Some v1 → handleConfigChange s1 k1 v1 c = c).
Proof.
  split; [| split].
  - intros Hne. destruct (decide (s1 = s2)) as [->|Hs].
    + rewrite !handleConfigChange_twice. f_equal.
      apply insert_insert_ne. congruence.
    + unfold handleConfigChange.
      rewrite !lookup_insert_ne by done. by apply insert_insert_ne.
  - rewrite handleConfigChange_twice. unfold handleConfigChange.
    by rewrite insert_insert_eq.
  - unfold config_get, handleConfigChange. intros H.
    destruct (c !! s1) as [sec|] eqn:E; simpl in H; [| done].
    simpl. rewrite (insert_id sec k1 v1 H). by apply insert_id.
Qed.

Lemma handleConfigChange_compose_witness :
  handleConfigChange "chunking" "chunkSize" (JNum 400)
    (handleConfigChange "cleaning" "fixHyphenation" (JBool false) DEFAULT_CONFIG)
  = handleConfigChange "cleaning" "fixHyphenation" (JBool false)
      (handleConfigChange "chunking" "chunkSize" (JNum 400) DEFAULT_CONFIG)
  ∧ handleConfigChange "chunking" "strategy" (JStr "semantic") DEFAULT_CONFIG
    = DEFAULT_CONFIG.
Proof.
  destruct (handleConfigChange_compose DEFAULT_CONFIG "chunking" "chunkSize"
              "cleaning" "fixHyphenation" (JNum 400) (JBool false)) as (H1 & _ & _).
  destruct (handleConfigChange_compose DEFAULT_CONFIG "chunking" "strategy"
              "chunking" "strategy" (JStr "semantic") (JStr "semantic")) as (_ & _ & H3).
  split; [apply H1; discriminate | apply H3; reflexivity].
Defined.

(** ** The configuration of a request *)

(** X2.  A reprocess request carries the configuration of the moment of
    the click: whatever happens afterwards (changes of configuration, other
    requests, ticks, answers), the closure of the call still holds that
    configuration and the id of the document that was current. *)
Theorem reprocess_config_captured (st : State) (cur : FileObj) (evs : list Event) :
  currentDocument st = Some cur →
  ∃ r, runs (exec evs (reprocessCurrentDocument st).1) !! length (runs st) = Some r
       ∧ r_op r = OpReprocess ∧ r_doc r = f_id cur ∧ r_config r = config st.
Proof.
  intros Hcur.
  assert (runs (reprocessCurrentDocument st).1 !! length (runs st)
          = Some {| r_op := OpReprocess; r_doc := f_id cur; r_config := config st;
                    r_current := Some (f_id cur); r_progress := 0;
                    r_interval := true; r_pending := true |}) as Hnew.
  { unfold reprocessCurrentDocument. rewrite Hcur. simpl.
    rewrite lookup_app_r by done. by rewrite Nat.sub_diag. }
  destruct (exec_same_closure _ evs _ _ Hnew) as (r & Hr & Hop & Hdoc & Hcfg & _).
  by exists r.
Qed.

Lemma reprocess_config_captured_witness :
  ∃ r, runs (exec [EConfigChange "chunking" "chunkSize" (JNum 400); EInterval 1]
                  (reprocessCurrentDocument completed_doc).1)
         !! length (runs completed_doc) = Some r
       ∧ r_op r = OpReprocess ∧ r_doc r = "doc-1"
       ∧ r_config r = config completed_doc.
Proof.
  apply (reprocess_config_captured completed_doc
           (file_completed chunks_v1 metadata_v1
              (file_uploaded "doc-1" (file_new "rapport.txt" "file-1-k3x9")))).
  reflexivity.
Defined.

(** ** Sending to Weaviate *)

Lemma connected_guard st :
  negb (String.eqb (weaviateStatus st) "connected")
  || negb (String.eqb (embeddingStatus st) "connected") = false
  ↔ weaviateStatus st = "connected" ∧ embeddingStatus st = "connected".
Proof.
  rewrite orb_false_iff, !negb_false_iff, !String.eqb_eq. done.
Qed.

(** X3.  [sendToWeaviate] starts an indexing call exactly when a document
    is current and both services are ['connected'], which is exactly when
    its button is rendered.  Starting marks the document ['indexing'] at 0
    and adds one call for its id; it changes no file record. *)
Theorem sendToWeaviate_starts_iff (st : State) :
  ((sendToWeaviate st).2 = Suspended
   ↔ is_Some (currentDocument st)
     ∧ weaviateStatus st = "connected" ∧ embeddingStatus st = "connected")
  ∧ ((sendToWeaviate st).2 = Suspended ↔ is_Some (send_button st))
  ∧ (∀ cur, currentDocument st = Some cur → (sendToWeaviate st).2 = Suspended →
       processingStatus (sendToWeaviate st).1 !! f_id cur = Some (ps_running Indexing 0)
       ∧ (∃ r, runs (sendToWeaviate st).1 = runs st ++ [r]
               ∧ r_op r = OpIndex ∧ r_doc r = f_id cur ∧ r_pending r = true)
       ∧ files (sendToWeaviate st).1 = files st).
Proof.
  split; [| split].
  - unfold sendToWeaviate. destruct (currentDocument st) as [cur|]; simpl.
    + destruct (_ || _) eqn:G; simpl.
      * split; [done |]. intros (_ & Hc). apply connected_guard in Hc. congruence.
      * apply connected_guard in G. split; [by eauto | done].
    + split; [done |]. intros ([? ?] & _). done.
  - unfold sendToWeaviate, send_button.
    destruct (currentDocument st) as [cur|]; simpl.
    + destruct (String.eqb (weaviateStatus st) "connected"),
               (String.eqb (embeddingStatus st) "connected"); simpl;
        (split; [try done; intros _; by eauto | try done; by intros [? ?]]).
    + split; [done | by intros [? ?]].
  - intros cur Hcur. unfold sendToWeaviate. rewrite Hcur.
    destruct (_ || _); simpl; [done |]. intros _.
    split; [apply lookup_insert_eq |]. split; [| done].
    eexists. split; [reflexivity |]. by repeat split.
Qed.

Lemma sendToWeaviate_starts_iff_witness :
  (sendToWeaviate connected_doc).2 = Suspended
  ∧ is_Some (send_button connected_doc)
  ∧ processingStatus (sendToWeaviate connected_doc).1 !! "doc-1"
    = Some (ps_running Indexing 0).
Proof.
  destruct (sendToWeaviate_starts_iff connected_doc) as (H1 & H2 & H3).
  assert ((sendToWeaviate connected_doc).2 = Suspended) as Hs.
  { apply H1. repeat split. by eexists. }
  split; [exact Hs |]. split; [by apply H2 |].
  destruct (H3 (file_completed chunks_v1 metadata_v1
                  (file_uploaded "doc-1" (file_new "rapport.txt" "file-1-k3x9")))
               eq_refl Hs) as (H & _).
  exact H.
Defined.

(** X4.  Once [sendToWeaviate] has started the call for the current
    document, whatever happens in between, the fulfilment of the call
    turns every file record of that document into ['indexed'] with the
    statistics of the response, keeps its chunks and metadata, and leaves
    the records of other documents as they are; the statistics are also
    stored in [indexingStats], and the document's [processingStatus] is
    ['indexed'] at 100. *)
Theorem index_success_indexed
    (st : State) (cur : FileObj) (evs : list Event) (stats : IndexingStats) :
  currentDocument st = Some cur →
  weaviateStatus st = "connected" → embeddingStatus st = "connected" →
  let n := length (runs st) in
  let st1 := exec evs (sendToWeaviate st).1 in
  (∀ r, runs st1 !! n = Some r → r_pending r = true) →
  let st' := settle n (IndexOk stats) st1 in
  (∀ i f, files st1 !! i = Some f →
          files st' !! i
          = Some (if String.eqb (f_id f) (f_id cur) then file_indexed stats f else f))
  ∧ length (files st') = length (files st1)
  ∧ indexingStats st' = Some stats
  ∧ processingStatus st' !! f_id cur = Some (ps_running Indexed 100)
  ∧ documentChunks st' = documentChunks st1.
Proof.
  intros Hcur Hw He n st1 Hpend st'.
  assert (runs (sendToWeaviate st).1 !! n
          = Some {| r_op := OpIndex; r_doc := f_id cur; r_config := config st;
                    r_current := Some (f_id cur); r_progress := 0;
                    r_interval := true; r_pending := true |}) as Hnew.
  { unfold sendToWeaviate. rewrite Hcur, Hw, He. simpl.
    rewrite lookup_app_r by done. by rewrite Nat.sub_diag. }
  destruct (exec_same_closure n evs _ _ Hnew) as (r & Hr & Hop & Hdoc & _ & _).
  simpl in Hop, Hdoc. fold st1 in Hr. specialize (Hpend r Hr).
  assert (st' = sendToWeaviate_then n r stats (set_runs (alter run_settled n) st1)) as ->.
  { subst st'. rewrite (settle_pending n r) by done. cbv zeta. by rewrite Hop. }
  unfold sendToWeaviate_then. simpl. rewrite Hdoc.
  split; [| split; [| split; [done | split; [apply lookup_insert_eq | done]]]].
  - intros i f Hi. by rewrite lookup_map_if, Hi.
  - unfold map_if. by rewrite length_map.
Qed.

Lemma index_success_indexed_witness :
  let st1 := exec [EInterval 1] (sendToWeaviate connected_doc).1 in
  let st' := settle (length (runs connected_doc)) (IndexOk sample_stats) st1 in
  indexingStats st' = Some sample_stats
  ∧ processingStatus st' !! "doc-1" = Some (ps_running Indexed 100).
Proof.
  cbv zeta.
  assert (runs (exec [EInterval 1] (sendToWeaviate connected_doc).1)
            !! length (runs connected_doc)
          = Some {| r_op := OpIndex; r_doc := "doc-1"; r_config := DEFAULT_CONFIG;
                    r_current := Some "doc-1"; r_progress := 5;
                    r_interval := true; r_pending := true |}) as Hrun
    by (vm_compute; reflexivity).
  destruct (index_success_indexed connected_doc
              (file_completed chunks_v1 metadata_v1
                 (file_uploaded "doc-1" (file_new "rapport.txt" "file-1-k3x9")))
              [EInterval 1] sample_stats) as (_ & _ & H3 & H4 & _).
  - vm_compute; reflexivity.
  - vm_compute; reflexivity.
  - vm_compute; reflexivity.
  - intros r Hr. rewrite Hrun in Hr. by injection Hr as <-.
  - split; [exact H3 | exact H4].
Defined.


(** ** File records *)

Lemma upload_loop_files k st :
  files (upload_loop k st) = files st
  ∨ ∃ file tmpId, files (upload_loop k st) = files st ++ [file_new file tmpId].
Proof.
  unfold upload_loop. destruct (uploads st !! k) as [u|]; [| by left].
  destruct (u_rest u) as [|[file tmpId] rest]; [by left |]. right. by eauto.
Qed.

Lemma effect_fold_files c cur (l : list FileObj) st :
  files (foldl (λ s f, (processDocument c cur (f_id f) s).1) st l) = files st.
Proof.
  revert st. induction l as [|f l IH]; intros st; cbn [foldl]; [done |].
  by rewrite IH.
Qed.

Lemma files_step_refl l : files_step l l.
Proof.
  exists l, []. rewrite app_nil_r. split; [done |]. split; [| constructor].
  induction l; constructor; [constructor | done].
Qed.

Lemma files_step_map_if p g l :
  (∀ f, record_step f (g f)) → files_step l (map_if p g l).
Proof.
  intros Hg. exists (map_if p g l), []. rewrite app_nil_r.
  split; [done |]. split; [| constructor].
  induction l as [|f l IH]; simpl; constructor; [| exact IH].
  destruct (p f); [apply Hg | constructor].
Qed.

Lemma files_step_snoc l l' file tmpId :
  files_step l l' → files_step l (l' ++ [file_new file tmpId]).
Proof.
  intros (l1 & extra & -> & H2 & Hx).
  exists l1, (extra ++ [file_new file tmpId]). rewrite app_assoc.
  split; [done |]. split; [done |].
  apply Forall_app_2; [done |]. apply Forall_singleton. by eauto.
Qed.

Lemma files_step_upload_loop k l st :
  files_step l (files st) → files_step l (files (upload_loop k st)).
Proof.
  intros H. destruct (upload_loop_files k st) as [E|(file & tmpId & E)]; rewrite E.
  - exact H.
  - by apply files_step_snoc.
Qed.

Lemma settle_files n resp st :
  files (settle n resp st) = files st
  ∨ ∃ p g, (∀ f, record_step f (g f))
           ∧ files (settle n resp st) = map_if p g (files st).
Proof.
  unfold settle. destruct (runs st !! n) as [r|]; [| by left].
  destruct (r_pending r); [| by left].
  destruct (r_op r), resp; simpl; try (by left); right.
  - exists (λ f, String.eqb (f_id f) (r_doc r)), (file_completed chunks metadata).
    split; [intros f; constructor |].
    unfold processDocument_then.
    by destruct (r_current r) as [c0|]; [destruct (String.eqb c0 (r_doc r)) |].
  - exists (λ f, String.eqb (f_id f) (r_doc r)), (file_failed message).
    split; [intros f; constructor | done].
  - exists (λ f, String.eqb (f_id f) (r_doc r)), (file_completed chunks metadata).
    split; [intros f; constructor | done].
  - exists (λ f, String.eqb (f_id f) (r_doc r)), (file_indexed indexing_stats).
    split; [intros f; constructor | done].
Qed.

(** Every event rewrites file records in place with one of the spreads of
    the handlers, and at most appends records of new uploads. *)
Lemma step_files_step ev st : files_step (files st) (files (step ev st)).
Proof.
  destruct ev; simpl; try apply files_step_refl.
  - unfold handleFileUpload. destruct newFiles; simpl; [apply files_step_refl |].
    apply files_step_upload_loop. apply files_step_refl.
  - unfold handleFileUpload_then.
    destruct (uploads st !! k) as [u|]; [| apply files_step_refl].
    destruct (u_pending u); [| apply files_step_refl].
    apply files_step_upload_loop. simpl.
    apply files_step_map_if. intros f. constructor.
  - unfold handleFileUpload_catch.
    destruct (uploads st !! k) as [u|]; [| apply files_step_refl].
    destruct (u_pending u); [| apply files_step_refl].
    apply files_step_upload_loop. simpl.
    apply files_step_map_if. intros f. constructor.
  - unfold effect_pending. rewrite effect_fold_files. apply files_step_refl.
  - destruct (files st !! i); apply files_step_refl.
  - unfold reprocessCurrentDocument.
    destruct (currentDocument st); apply files_step_refl.
  - unfold sendToWeaviate.
    destruct (currentDocument st); [| apply files_step_refl].
    destruct (_ || _); apply files_step_refl.
  - unfold interval_callback.
    destruct (runs st !! n) as [r|]; [| apply files_step_refl].
    destruct (r_interval r); [| apply files_step_refl]. cbv zeta.
    destruct (_ <=? _); apply files_step_refl.
  - destruct (settle_files n resp st) as [E|(p & g & Hg & E)]; rewrite E.
    + apply files_step_refl.
    + by apply files_step_map_if.
  - destruct (pendingWeaviate st); [apply files_step_refl |].
    destruct failure; apply files_step_refl.
  - destruct (pendingEmbedder st); [apply files_step_refl |].
    destruct failure; apply files_step_refl.
  - destruct (pendingStatus st); [| apply files_step_refl].
    destruct answer as [[w e]|]; apply files_step_refl.
Qed.

Lemma record_step_kept f f' : record_step f f' → record_kept f f'.
Proof.
  intros []; unfold record_kept; simpl; repeat split; try done; by eauto.
Qed.

Lemma record_kept_trans f1 f2 f3 :
  record_kept f1 f2 → record_kept f2 f3 → record_kept f1 f3.
Proof.
  intros (A1 & A2 & A3 & A4) (B1 & B2 & B3 & B4).
  repeat split; [congruence | auto ..].
Qed.

Lemma files_step_lookup l l' i f :
  files_step l l' → l !! i = Some f →
  ∃ f', l' !! i = Some f' ∧ record_step f f'.
Proof.
  intros (l1 & extra & -> & H2 & _) Hi.
  destruct (Forall2_lookup_l _ _ _ _ _ H2 Hi) as (f' & Hf' & Hs).
  exists f'. split; [by apply lookup_app_l_Some | done].
Qed.



Lemma record_step_ok f f' : record_step f f' → record_ok f → record_ok f'.
Proof.
  intros [] [Hp Hs]; split; simpl; try done; by eauto.
Qed.

Lemma files_step_ok l l' :
  files_step l l' → Forall record_ok l → Forall record_ok l'.
Proof.
  intros (l1 & extra & -> & H2 & Hx) Hl. apply Forall_app_2.
  - clear Hx. induction H2 as [|f f' l l1 Hs _ IH]; [constructor |].
    apply Forall_cons in Hl as [Hf Hl].
    constructor; [by eapply record_step_ok | by apply IH].
  - eapply Forall_impl; [exact Hx |]. intros f (file & tmpId & ->). by split.
Qed.

Lemma exec_files_ok evs st :
  Forall record_ok (files st) → Forall record_ok (files (exec evs st)).
Proof.
  revert st. induction evs as [|ev evs IH]; intros st H; simpl; [done |].
  apply IH. eapply files_step_ok; [apply step_files_step | done].
Qed.




(** ** The answers of [/process] *)

(** X7.  When the call of [processDocument] is rejected, every file
    record with the id of the call gets status ['error'] and the message,
    and keeps its chunks, metadata and indexing statistics; records with
    another id, the displayed chunks and the current document are
    unchanged; [processingStatus] holds ['error'] with the message.  No
    alert is raised. *)
Theorem process_failure_recorded (st : State) (n : nat) (r : Run) (message : string) :
  runs st !! n = Some r → r_pending r = true → r_op r = OpProcess →
  let st' := settle n (Failure message) st in
  (∀ i f, files st !! i = Some f →
          files st' !! i
          = Some (if String.eqb (f_id f) (r_doc r) then file_failed message f else f))
  ∧ (∀ f', f' ∈ files st' → f_id f' = r_doc r →
           f_status f' = Error ∧ f_error f' = Some message)
  ∧ processingStatus st' !! r_doc r = Some (ps_failed message)
  ∧ documentChunks st' = documentChunks st
  ∧ currentDocument st' = currentDocument st
  ∧ alerts st' = alerts st.
Proof.
  intros Hr Hp Hop st'. subst st'.
  rewrite (settle_pending n r) by done. cbv zeta. rewrite Hop.
  unfold processDocument_catch. simpl.
  split; [| split; [| split; [apply lookup_insert_eq | done]]].
  - intros i f Hi. by rewrite lookup_map_if, Hi.
  - intros f' Hin Hid. apply elem_of_map_if in Hin. destruct Hin as (f & _ & ->).
    destruct (String.eqb (f_id f) (r_doc r)) eqn:E; [done |].
    apply String.eqb_neq in E. done.
Qed.

Lemma process_failure_recorded_witness :
  let st := exec [ EFileUpload [("rapport.txt", "file-1-k3x9")];
                   EUploaded 0 "doc-1" ] initial_state in
  processingStatus (settle 0 (Failure "Network Error") st) !! "doc-1"
  = Some (ps_failed "Network Error")
  ∧ files (settle 0 (Failure "Network Error") st) !! 0%nat
    = Some (file_failed "Network Error"
              (file_uploaded "doc-1" (file_new "rapport.txt" "file-1-k3x9"))).
Proof.
  cbv zeta.
  destruct (process_failure_recorded
              (exec [ EFileUpload [("rapport.txt", "file-1-k3x9")];
                      EUploaded 0 "doc-1" ] initial_state) 0
              {| r_op := OpProcess; r_doc := "doc-1"; r_config := DEFAULT_CONFIG;
                 r_current := None; r_progress := 0;
                 r_interval := true; r_pending := true |}
              "Network Error" eq_refl eq_refl eq_refl) as (H1 & _ & H3 & _).
  split; [exact H3 |].
  exact (H1 0%nat (file_uploaded "doc-1" (file_new "rapport.txt" "file-1-k3x9")) eq_refl).
Defined.

(** X8.  A fulfilled [/process] call rewrites only the status, chunks and
    metadata of the file records with the id of the call: their indexing
    statistics and error message, left by earlier runs, stay on them, and
    records with another id are unchanged.  The current document is not
    refreshed.  The displayed chunks are replaced after a reprocess; after
    [processDocument] they are replaced only when the document of the call
    was the current one when the call was made. *)
Theorem process_success_frame
    (st : State) (n : nat) (r : Run) (chunks : list Chunk) (metadata : Metadata) :
  runs st !! n = Some r → r_pending r = true → r_op r ≠ OpIndex →
  let st' := settle n (ProcessOk chunks metadata) st in
  (∀ i f, files st !! i = Some f →
          ∃ f', files st' !! i = Some f'
                ∧ f_id f' = f_id f ∧ f_file f' = f_file f
                ∧ f_indexingStats f' = f_indexingStats f ∧ f_error f' = f_error f
                ∧ (f_id f ≠ r_doc r → f' = f))
  ∧ currentDocument st' = currentDocument st
  ∧ indexingStats st' = indexingStats st
  ∧ documentChunks st'
    = (if decide (r_op r = OpReprocess ∨ r_current r = Some (r_doc r))
       then chunks else documentChunks st).
Proof.
  intros Hr Hp Hop st'.
  destruct (process_ok_files n r chunks metadata st Hr Hp Hop) as [Hfiles _].
  fold st' in Hfiles.
  split.
  - intros i f Hi. rewrite Hfiles, lookup_map_if, Hi. simpl.
    destruct (String.eqb (f_id f) (r_doc r)) eqn:E.
    + eexists. split; [reflexivity |]. repeat split.
      apply String.eqb_eq in E. done.
    + exists f. by repeat split.
  - subst st'. rewrite (settle_pending n r) by done. cbv zeta.
    destruct (r_op r) eqn:E; [| | done].
    + unfold processDocument_then.
      destruct (r_current r) as [c0|] eqn:Ec.
      * destruct (String.eqb_spec c0 (r_doc r)) as [->|Hne]; simpl.
        -- repeat split. rewrite decide_True; [done | by right].
        -- repeat split. rewrite decide_False; [done |]. intros [?|?]; congruence.
      * simpl. by repeat split.
    + unfold reprocessCurrentDocument_then. simpl. by repeat split.
Qed.

Lemma process_success_frame_witness :
  let st := exec [ EFileUpload [("rapport.txt", "file-1-k3x9")];
                   EUploaded 0 "doc-1"; ESelect 0 ] initial_state in
  documentChunks (settle 0 (ProcessOk chunks_v1 metadata_v1) st) = []
  ∧ currentDocument (settle 0 (ProcessOk chunks_v1 metadata_v1) st) = currentDocument st.
Proof.
  cbv zeta.
  destruct (process_success_frame
              (exec [ EFileUpload [("rapport.txt", "file-1-k3x9")];
                      EUploaded 0 "doc-1"; ESelect 0 ] initial_state) 0
              {| r_op := OpProcess; r_doc := "doc-1"; r_config := DEFAULT_CONFIG;
                 r_current := None; r_progress := 0;
                 r_interval := true; r_pending := true |}
              chunks_v1 metadata_v1 eq_refl eq_refl) as (_ & H2 & _ & H4).
  - discriminate.
  - split; [exact H4 | exact H2].
Defined.

(** ** Intervals *)

Lemma interval_callback_active n r st :
  runs st !! n = Some r → r_interval r = true →
  let p := r_progress r + interval_increment (r_op r) in
  runs (interval_callback n st) !! n = Some (run_with_progress p r)
  ∧ processingStatus (interval_callback n st)
    = (if p <=? 90
       then <[r_doc r := ps_running (running_status (r_op r)) p]> (processingStatus st)
       else processingStatus st).
Proof.
  intros Hr Hi p. unfold interval_callback. rewrite Hr, Hi. fold p.
  destruct (p <=? 90); simpl; (split; [| done]);
    by rewrite list_lookup_alter_eq, Hr.
Qed.

Lemma ticks_progress n (k : nat) : ∀ (j : nat) st r,
  runs st !! n = Some r → r_interval r = true →
  r_progress r = interval_increment (r_op r) * Z.of_nat j →
  (1 ≤ j →
   processingStatus st !! r_doc r
   = Some (ps_running (running_status (r_op r))
                      (Z.min (interval_increment (r_op r) * Z.of_nat j) 90)))%nat →
  ∃ r', runs (exec (replicate k (EInterval n)) st) !! n = Some r'
        ∧ r_progress r' = interval_increment (r_op r) * Z.of_nat (j + k)
        ∧ ((1 ≤ j + k)%nat →
           processingStatus (exec (replicate k (EInterval n)) st) !! r_doc r
           = Some (ps_running (running_status (r_op r))
                     (Z.min (interval_increment (r_op r) * Z.of_nat (j + k)) 90))).
Proof.
  induction k as [|k IH]; intros j st r Hr Hi Hp Hps; simpl.
  - exists r. rewrite Nat.add_0_r. by repeat split.
  - destruct (interval_callback_active n r st Hr Hi) as [Hr1 Hps1].
    cbv zeta in Hr1, Hps1.
    destruct (IH (S j) (interval_callback n st)
                 (run_with_progress (r_progress r + interval_increment (r_op r)) r))
      as (r' & Hr' & Hp' & Hps'); [done | done | | |].
    + simpl. rewrite Hp. lia.
    + intros _. simpl. rewrite Hps1, Hp.
      destruct (Z.leb_spec (interval_increment (r_op r) * Z.of_nat j
                            + interval_increment (r_op r)) 90) as [Hle|Hgt].
      * rewrite lookup_insert_eq. do 2 f_equal. lia.
      * assert (1 ≤ j)%nat as Hj by (destruct (r_op r); simpl in *; lia).
        rewrite (Hps Hj). do 2 f_equal. destruct (r_op r); simpl in *; lia.
    + simpl in Hr', Hp', Hps'. exists r'.
      replace (j + S k)%nat with (S j + k)%nat by lia. by repeat split.
Qed.

(** X9.  The simulated progress of a run that has just been started
    grows by its increment (5 for processing and indexing, 10 for
    reprocessing) at each tick and stops at 90: after [k ≥ 1] ticks, with
    nothing else happening, the document shows the run's status with
    progress [min (increment * k) 90], while the counter of the interval
    itself goes on growing. *)
Theorem progress_saturates (st : State) (n : nat) (r : Run) (k : nat) :
  runs st !! n = Some r → r_interval r = true → r_progress r = 0 →
  (1 ≤ k)%nat →
  let st' := exec (replicate k (EInterval n)) st in
  processingStatus st' !! r_doc r
  = Some (ps_running (running_status (r_op r))
            (Z.min (interval_increment (r_op r) * Z.of_nat k) 90))
  ∧ (r_progress <$> runs st' !! n) = Some (interval_increment (r_op r) * Z.of_nat k).
Proof.
  intros Hr Hi Hp Hk st'.
  destruct (ticks_progress n k 0 st r Hr Hi) as (r' & Hr' & Hp' & Hps'); [lia | lia |].
  simpl in Hp', Hps'. fold st' in Hr', Hps'.
  split; [by apply Hps' |]. by rewrite Hr', <- Hp'.
Qed.

Lemma progress_saturates_witness :
  let st := step EReprocess completed_doc in
  processingStatus (exec (replicate 12 (EInterval 1)) st) !! "doc-1"
  = Some (ps_running Reprocessing 90)
  ∧ (r_progress <$> runs (exec (replicate 12 (EInterval 1)) st) !! 1%nat) = Some 120.
Proof.
  cbv zeta.
  refine (progress_saturates (step EReprocess completed_doc) 1
            {| r_op := OpReprocess; r_doc := "doc-1"; r_config := DEFAULT_CONFIG;
               r_current := Some "doc-1"; r_progress := 0;
               r_interval := true; r_pending := true |}
            12 eq_refl eq_refl eq_refl _).
  lia.
Defined.


(** ** A call settles once *)

Lemma settle_success_run n r resp st :
  runs st !! n = Some r → r_pending r = true → answers (r_op r) resp →
  runs (settle n resp st) !! n = Some (run_cleared (run_settled r)).
Proof.
  intros Hr Hp Ha. rewrite (settle_pending n r) by done. cbv zeta.
  destruct (r_op r), resp; simpl in Ha; try done;
    unfold processDocument_then;
    try (destruct (r_current r) as [c0|]; [destruct (String.eqb c0 (r_doc r)) |]);
    simpl; by rewrite !list_lookup_alter_eq, Hr.
Qed.

Lemma settle_failure_run n r message st :
  runs st !! n = Some r → r_pending r = true →
  runs (settle n (Failure message) st) !! n = Some (run_settled r).
Proof.
  intros Hr Hp. rewrite (settle_pending n r) by done. cbv zeta.
  destruct (r_op r); simpl; by rewrite list_lookup_alter_eq, Hr.
Qed.

(** X10.  A call settles once: after its answer, fulfilment or rejection,
    a second answer for the same call changes nothing.  After a
    fulfilment the interval of the run is cleared and its callback changes
    nothing any more; after a rejection the interval is still running and
    its callback goes on counting. *)
Theorem settled_run_is_silent (st : State) (n : nat) (r : Run) :
  runs st !! n = Some r → r_pending r = true →
  (∀ resp resp', answers (r_op r) resp ∨ (∃ message, resp = Failure message) →
                 settle n resp' (settle n resp st) = settle n resp st)
  ∧ (∀ resp, answers (r_op r) resp →
             interval_callback n (settle n resp st) = settle n resp st)
  ∧ (∀ message, r_interval r = true →
       (r_progress <$> runs (interval_callback n (settle n (Failure message) st)) !! n)
       = Some (r_progress r + interval_increment (r_op r))).
Proof.
  intros Hr Hp. split; [| split].
  - intros resp resp' [Ha|[message ->]].
    + pose proof (settle_success_run n r resp st Hr Hp Ha) as H.
      unfold settle at 1. by rewrite H.
    + pose proof (settle_failure_run n r message st Hr Hp) as H.
      unfold settle at 1. by rewrite H.
  - intros resp Ha.
    pose proof (settle_success_run n r resp st Hr Hp Ha) as H.
    unfold interval_callback. by rewrite H.
  - intros message Hi.
    pose proof (settle_failure_run n r message st Hr Hp) as H.
    destruct (interval_callback_active n (run_settled r) _ H Hi) as [H1 _].
    cbv zeta in H1. by rewrite H1.
Qed.

Lemma settled_run_is_silent_witness :
  let st := step EReprocess completed_doc in
  interval_callback 1 (settle 1 (ProcessOk chunks_v2 metadata_v1) st)
  = settle 1 (ProcessOk chunks_v2 metadata_v1) st
  ∧ (r_progress <$> runs (interval_callback 1 (settle 1 (Failure "Network Error") st))
                      !! 1%nat) = Some 10.
Proof.
  cbv zeta.
  destruct (settled_run_is_silent (step EReprocess completed_doc) 1
              {| r_op := OpReprocess; r_doc := "doc-1"; r_config := DEFAULT_CONFIG;
                 r_current := Some "doc-1"; r_progress := 0;
                 r_interval := true; r_pending := true |}
              eq_refl eq_refl) as (_ & H2 & H3).
  split; [exact (H2 (ProcessOk chunks_v2 metadata_v1) I) |].
  exact (H3 "Network Error" eq_refl).
Defined.

(** ** The effect on pending files *)

Lemma effect_fold_runs c cur (l : list FileObj) st :
  runs (foldl (λ s f, (processDocument c cur (f_id f) s).1) st l)
  = runs st ++ map (process_run c cur) l.
Proof.
  revert st. induction l as [|f l IH]; intros st; cbn [foldl map].
  - by rewrite app_nil_r.
  - rewrite IH. simpl. by rewrite <- app_assoc.
Qed.

Lemma effect_fold_started c cur (l : list FileObj) st f :
  f ∈ l →
  processingStatus (foldl (λ s f, (processDocument c cur (f_id f) s).1) st l) !! f_id f
  = Some (ps_running Processing 0).
Proof.
  revert st. induction l as [|f0 l IH]; intros st Hin; [by inversion Hin |].
  cbn [foldl]. apply elem_of_cons in Hin as [->|Hin]; [| by apply IH].
  destruct (effect_fold_table c cur l (processDocument c cur (f_id f0) st).1 (f_id f0))
    as [E|E]; [| done].
  rewrite E. simpl. apply lookup_insert_eq.
Qed.

Lemma effect_fold_frame c cur (l : list FileObj) st :
  let st' := foldl (λ s f, (processDocument c cur (f_id f) s).1) st l in
  config st' = config st ∧ currentDocument st' = currentDocument st
  ∧ documentChunks st' = documentChunks st ∧ alerts st' = alerts st
  ∧ weaviateStatus st' = weaviateStatus st ∧ embeddingStatus st' = embeddingStatus st
  ∧ indexingStats st' = indexingStats st.
Proof.
  cbv zeta. revert st. induction l as [|f l IH]; intros st; cbn [foldl]; [done |].
  destruct (IH (processDocument c cur (f_id f) st).1) as (-> & -> & -> & -> & -> & -> & ->).
  done.
Qed.

(** X11.  Each run of the effect on [files] starts one [processDocument]
    call for every file record that is ['pending'], in the order of the
    list, with the configuration of that moment, and marks each of these
    documents ['processing'] at 0.  It does not change [files], so a record
    stays ['pending'] and the next run of the effect starts a call for it
    again; without a pending record the effect adds no call. *)
Theorem effect_pending_runs (st : State) :
  let pendingFiles := filter (λ f, f_status f = Pending) (files st) in
  runs (effect_pending st)
  = runs st ++ map (process_run (config st) (f_id <$> currentDocument st)) pendingFiles
  ∧ files (effect_pending st) = files st
  ∧ (∀ f, f ∈ files st → f_status f = Pending →
          processingStatus (effect_pending st) !! f_id f = Some (ps_running Processing 0))
  ∧ runs (effect_pending (effect_pending st))
    = runs st
      ++ map (process_run (config st) (f_id <$> currentDocument st)) pendingFiles
      ++ map (process_run (config st) (f_id <$> currentDocument st)) pendingFiles.
Proof.
  intros pendingFiles.
  assert (∀ s, files (effect_pending s) = files s) as Hfiles.
  { intros s. unfold effect_pending. apply effect_fold_files. }
  assert (∀ s, runs (effect_pending s)
               = runs s ++ map (process_run (config s) (f_id <$> currentDocument s))
                               (filter (λ f, f_status f = Pending) (files s))) as Hruns.
  { intros s. unfold effect_pending. apply effect_fold_runs. }
  split; [apply Hruns |]. split; [apply Hfiles |]. split.
  - intros f Hin Hs. unfold effect_pending. apply effect_fold_started.
    by apply list_elem_of_filter.
  - rewrite (Hruns (effect_pending st)), Hfiles, Hruns, <- app_assoc.
    assert (config (effect_pending st) = config st
            ∧ currentDocument (effect_pending st) = currentDocument st) as [-> ->]; [| done].
    unfold effect_pending. split; apply (effect_fold_frame _ _ _ st).
Qed.

Lemma effect_pending_runs_witness :
  let st := exec [ EFileUpload [("rapport.txt", "file-1-k3x9")];
                   EUploaded 0 "doc-1" ] initial_state in
  processingStatus (effect_pending st) !! "doc-1" = Some (ps_running Processing 0).
Proof.
  cbv zeta.
  destruct (effect_pending_runs
              (exec [ EFileUpload [("rapport.txt", "file-1-k3x9")];
                      EUploaded 0 "doc-1" ] initial_state)) as (_ & _ & H & _).
  apply (H (file_uploaded "doc-1" (file_new "rapport.txt" "file-1-k3x9"))).
  - vm_compute. apply list_elem_of_here.
  - reflexivity.
Defined.


(** ** Uploads *)

Lemma upload_loop_frame k st :
  processingStatus (upload_loop k st) = processingStatus st
  ∧ runs (upload_loop k st) = runs st
  ∧ currentDocument (upload_loop k st) = currentDocument st
  ∧ documentChunks (upload_loop k st) = documentChunks st
  ∧ alerts (upload_loop k st) = alerts st
  ∧ weaviateStatus (upload_loop k st) = weaviateStatus st
  ∧ embeddingStatus (upload_loop k st) = embeddingStatus st.
Proof.
  unfold upload_loop. destruct (uploads st !! k) as [u|]; [| done].
  by destruct (u_rest u) as [|[file tmpId] rest].
Qed.

Lemma upload_loop_next k u st :
  uploads st !! k = Some u →
  files (upload_loop k st)
  = files st ++ match u_rest u with
                | [] => []
                | (file, tmpId) :: _ => [file_new file tmpId]
                end
  ∧ (u_pending <$> uploads (upload_loop k st) !! k)
    = Some (match u_rest u with [] => false | _ :: _ => true end).
Proof.
  intros Hu. unfold upload_loop. rewrite Hu.
  assert (k < length (uploads st))%nat by (by eapply lookup_lt_Some).
  destruct (u_rest u) as [|[file tmpId] rest]; simpl.
  - rewrite app_nil_r. split; [done |]. by rewrite list_lookup_insert_eq.
  - split; [done |]. by rewrite list_lookup_insert_eq.
Qed.

(** X12.  When the upload of a file is answered, every record of that
    file gets the id given by the server and status ['pending'], and
    exactly one [processDocument] call is started, for that id, with the
    configuration and current document of the moment the files were
    chosen.  When the upload is rejected, the records of the file get
    status ['error'] with the message and no call is started, no entry of
    [processingStatus] is written and no alert is raised.  In both cases
    the loop goes on: the record of the next chosen file, if any, is
    appended, and the upload is pending exactly when there was one. *)
Theorem upload_settled (st : State) (k : nat) (u : Upload) :
  uploads st !! k = Some u → u_pending u = true →
  let next := match u_rest u with
              | [] => []
              | (file, tmpId) :: _ => [file_new file tmpId]
              end in
  let more := match u_rest u with [] => false | _ :: _ => true end in
  (∀ uploadId,
     let st' := handleFileUpload_then k uploadId st in
     files st' = map_if (λ f, String.eqb (f_file f) (u_file u))
                        (file_uploaded uploadId) (files st) ++ next
     ∧ runs st' = runs st ++ [ {| r_op := OpProcess; r_doc := uploadId;
                                  r_config := u_config u; r_current := u_current u;
                                  r_progress := 0; r_interval := true;
                                  r_pending := true |} ]
     ∧ processingStatus st' = <[uploadId := ps_running Processing 0]> (processingStatus st)
     ∧ (u_pending <$> uploads st' !! k) = Some more)
  ∧ (∀ message,
       let st' := handleFileUpload_catch k message st in
       files st' = map_if (λ f, String.eqb (f_file f) (u_file u))
                          (file_failed message) (files st) ++ next
       ∧ runs st' = runs st
       ∧ processingStatus st' = processingStatus st
       ∧ alerts st' = alerts st
       ∧ (u_pending <$> uploads st' !! k) = Some more).
Proof.
  intros Hu Hp next more. split.
  - intros uploadId st'. subst st'. unfold handleFileUpload_then. rewrite Hu, Hp.
    set (st2 := (processDocument (u_config u) (u_current u) uploadId
                   (setFiles (map_if (λ f, String.eqb (f_file f) (u_file u))
                                     (file_uploaded uploadId)) st)).1).
    assert (uploads st2 !! k = Some u) as Hu2 by exact Hu.
    destruct (upload_loop_next k u st2 Hu2) as [Hf Hpend].
    destruct (upload_loop_frame k st2) as (Hps & Hruns & _).
    rewrite Hf, Hruns, Hps, Hpend. done.
  - intros message st'. subst st'. unfold handleFileUpload_catch. rewrite Hu, Hp.
    set (st1 := setFiles (map_if (λ f, String.eqb (f_file f) (u_file u))
                                 (file_failed message)) st).
    assert (uploads st1 !! k = Some u) as Hu1 by exact Hu.
    destruct (upload_loop_next k u st1 Hu1) as [Hf Hpend].
    destruct (upload_loop_frame k st1) as (Hps & Hruns & _ & _ & Ha & _).
    rewrite Hf, Hruns, Hps, Ha, Hpend. done.
Qed.

Lemma upload_settled_witness :
  let st := step (EFileUpload [("a.txt", "file-1-a"); ("b.txt", "file-2-b")])
                 initial_state in
  files (handleFileUpload_catch 0 "Network Error" st)
  = [ file_failed "Network Error" (file_new "a.txt" "file-1-a");
      file_new "b.txt" "file-2-b" ]
  ∧ runs (handleFileUpload_catch 0 "Network Error" st) = [].
Proof.
  cbv zeta.
  destruct (upload_settled
              (step (EFileUpload [("a.txt", "file-1-a"); ("b.txt", "file-2-b")])
                    initial_state) 0
              {| u_file := "a.txt"; u_rest := [("b.txt", "file-2-b")];
                 u_config := DEFAULT_CONFIG; u_current := None; u_pending := true |}
              eq_refl eq_refl) as [_ H].
  destruct (H "Network Error") as (Hf & Hr & _).
  split; [exact Hf | exact Hr].
Defined.

(** ** The current document is a copy *)

Lemma settle_frame n resp st :
  currentDocument (settle n resp st) = currentDocument st
  ∧ weaviateStatus (settle n resp st) = weaviateStatus st
  ∧ embeddingStatus (settle n resp st) = embeddingStatus st
  ∧ config (settle n resp st) = config st.
Proof.
  unfold settle. destruct (runs st !! n) as [r|]; [| done].
  destruct (r_pending r); [| done].
  destruct (r_op r), resp; simpl; try done.
  unfold processDocument_then.
  by destruct (r_current r) as [c0|]; [destruct (String.eqb c0 (r_doc r)) |].
Qed.

Lemma step_currentDocument ev st :
  (∀ i, ev ≠ ESelect i) → currentDocument (step ev st) = currentDocument st.
Proof.
  intros Hev. destruct ev; simpl; try done.
  - unfold handleFileUpload. destruct newFiles; simpl; [done |].
    by destruct (upload_loop_frame (length (uploads st))
       (set_uploads (λ us, us ++ [ {| u_file := ""; u_rest := p :: newFiles;
                                      u_config := config st;
                                      u_current := f_id <$> currentDocument st;
                                      u_pending := false |} ]) st)) as (_ & _ & -> & _).
  - unfold handleFileUpload_then.
    destruct (uploads st !! k) as [u|]; [| done]. destruct (u_pending u); [| done].
    by destruct (upload_loop_frame k
       (processDocument (u_config u) (u_current u) uploadResult_id
          (setFiles (map_if (λ f, String.eqb (f_file f) (u_file u))
                            (file_uploaded uploadResult_id)) st)).1) as (_ & _ & -> & _).
  - unfold handleFileUpload_catch.
    destruct (uploads st !! k) as [u|]; [| done]. destruct (u_pending u); [| done].
    by destruct (upload_loop_frame k
       (setFiles (map_if (λ f, String.eqb (f_file f) (u_file u))
                         (file_failed message)) st)) as (_ & _ & -> & _).
  - unfold effect_pending. apply (effect_fold_frame _ _ _ st).
  - by destruct (Hev i).
  - unfold reprocessCurrentDocument. destruct (currentDocument st) eqn:?; by simpl.
  - unfold sendToWeaviate. destruct (currentDocument st) eqn:?; [| done].
    destruct (_ || _); by simpl.
  - unfold interval_callback. destruct (runs st !! n) as [r|]; [| done].
    destruct (r_interval r); [| done]. cbv zeta. by destruct (_ <=? _).
  - apply settle_frame.
  - destruct (pendingWeaviate st); [done |]. by destruct failure.
  - destruct (pendingEmbedder st); [done |]. by destruct failure.
  - destruct (pendingStatus st); [| done]. by destruct answer as [[w e]|].
Qed.

(** X13.  [currentDocument] is a copy made when the document is
    selected: through any events other than a selection it stays the
    same record, whatever becomes of the document in [files].  So the
    button that sends it to Weaviate, whenever it is rendered, keeps its
    label and is never disabled by the indexing it started. *)
Theorem currentDocument_only_select (evs : list Event) (st : State) :
  Forall (λ ev, ∀ i, ev ≠ ESelect i) evs →
  currentDocument (exec evs st) = currentDocument st
  ∧ (∀ b b', send_button st = Some b → send_button (exec evs st) = Some b' → b' = b).
Proof.
  intros Hevs.
  assert (currentDocument (exec evs st) = currentDocument st) as Hcur.
  { revert st. induction Hevs as [|ev evs Hev _ IH]; intros st; simpl; [done |].
    rewrite IH. by apply step_currentDocument. }
  split; [exact Hcur |].
  intros b b'. unfold send_button. rewrite Hcur.
  destruct (currentDocument st) as [cur|]; [| done].
  destruct (_ && _), (_ && _); congruence.
Qed.

Lemma currentDocument_only_select_witness :
  (f_status <$> currentDocument
     (exec [ESendToWeaviate; ESettle 1 (IndexOk sample_stats)] connected_doc))
  = Some Completed
  ∧ (f_status <$> find_file "doc-1"
       (exec [ESendToWeaviate; ESettle 1 (IndexOk sample_stats)] connected_doc))
    = Some Indexed.
Proof.
  destruct (currentDocument_only_select
              [ESendToWeaviate; ESettle 1 (IndexOk sample_stats)] connected_doc)
    as [H _].
  - repeat constructor; discriminate.
  - rewrite H. split; reflexivity.
Defined.

(** ** Alerts *)

(** X14.  An event leaves the list of alerts as it is or adds one message
    to it, and it adds one only when it is the rejection of a pending
    indexing call or of a connection attempt: a failed upload, a failed
    [processDocument] and a failed reprocess raise no alert. *)
Theorem alerts_only_on_failure (ev : Event) (st : State) :
  alerts (step ev st) = alerts st
  ∨ (alerting ev st ∧ ∃ message, alerts (step ev st) = alerts st ++ [message]).
Proof.
  destruct ev; simpl; try (by left).
  - left. unfold handleFileUpload. destruct newFiles; simpl; [done |].
    by destruct (upload_loop_frame (length (uploads st))
       (set_uploads (λ us, us ++ [ {| u_file := ""; u_rest := p :: newFiles;
                                      u_config := config st;
                                      u_current := f_id <$> currentDocument st;
                                      u_pending := false |} ]) st))
      as (_ & _ & _ & _ & -> & _).
  - left. unfold handleFileUpload_then.
    destruct (uploads st !! k) as [u|]; [| done]. destruct (u_pending u); [| done].
    by destruct (upload_loop_frame k
       (processDocument (u_config u) (u_current u) uploadResult_id
          (setFiles (map_if (λ f, String.eqb (f_file f) (u_file u))
                            (file_uploaded uploadResult_id)) st)).1)
      as (_ & _ & _ & _ & -> & _).
  - left. unfold handleFileUpload_catch.
    destruct (uploads st !! k) as [u|]; [| done]. destruct (u_pending u); [| done].
    by destruct (upload_loop_frame k
       (setFiles (map_if (λ f, String.eqb (f_file f) (u_file u))
                         (file_failed message)) st)) as (_ & _ & _ & _ & -> & _).
  - left. unfold effect_pending. apply (effect_fold_frame _ _ _ st).
  - left. by destruct (files st !! i).
  - left. unfold reprocessCurrentDocument. destruct (currentDocument st) eqn:?; by simpl.
  - left. unfold sendToWeaviate. destruct (currentDocument st) eqn:?; [| done].
    destruct (_ || _); by simpl.
  - left. unfold interval_callback. destruct (runs st !! n) as [r|]; [| done].
    destruct (r_interval r); [| done]. cbv zeta. by destruct (_ <=? _).
  - unfold settle. destruct (runs st !! n) as [r|] eqn:Hr; [| by left].
    destruct (r_pending r) eqn:Hp; [| by left].
    destruct (r_op r) eqn:Hop, resp; simpl; try (by left).
    + left. unfold processDocument_then.
      by destruct (r_current r) as [c0|]; [destruct (String.eqb c0 (r_doc r)) |].
    + right. split; [| by eauto]. left. by exists n, r, message.
  - destruct (pendingWeaviate st); [by left |].
    destruct failure as [message|]; [| by left].
    right. split; [| by eauto]. right. left. by eauto.
  - destruct (pendingEmbedder st); [by left |].
    destruct failure as [message|]; [| by left].
    right. split; [| by eauto]. right. right. by eauto.
  - left. destruct (pendingStatus st); [| done]. by destruct answer as [[w e]|].
Qed.

(** ** The progress bar *)

(** X15.  In every state the component can reach, a progress bar that is
    rendered for a list item is between 0 and 90 percent wide; it is blue
    exactly when the document is being indexed and yellow otherwise. *)
Theorem progress_bar_bounds (evs : list Event) (fileObj : FileObj)
    (colour : Colour) (width : Z) :
  progress_bar (exec evs initial_state) fileObj = Some (colour, width) →
  0 ≤ width ≤ 90
  ∧ (colour = Blue
     ↔ (ps_status <$> processingStatus (exec evs initial_state) !! f_id fileObj)
       = Some Indexing)
  ∧ (colour = Blue ∨ colour = Yellow).
Proof.
  destruct (exec_ok evs initial_state) as [_ Htab]; [apply initial_ok .. |].
  unfold progress_bar.
  destruct (processingStatus (exec evs initial_state) !! f_id fileObj) as [e|] eqn:He;
    [| done].
  pose proof (map_Forall_lookup_1 _ _ _ _ Htab He) as Hok. simpl in Hok.
  unfold entry_ok in Hok. simpl.
  destruct (ps_status e); try done; destruct Hok as (p & Hp & Hb);
    rewrite Hp; simpl; intros [= <- <-];
    (split; [lia |]); (split; [split; intros; congruence | auto]).
Qed.

Lemma progress_bar_bounds_witness :
  progress_bar (exec ticking_reprocess initial_state)
    (file_completed chunks_v1 metadata_v1
       (file_uploaded "doc-1" (file_new "rapport.txt" "file-1-k3x9")))
  = Some (Yellow, 20)
  ∧ 0 ≤ 20 ≤ 90.
Proof.
  assert (progress_bar (exec ticking_reprocess initial_state)
            (file_completed chunks_v1 metadata_v1
               (file_uploaded "doc-1" (file_new "rapport.txt" "file-1-k3x9")))
          = Some (Yellow, 20)) as H by (vm_compute; reflexivity).
  split; [exact H |].
  exact (proj1 (progress_bar_bounds _ _ _ _ H)).
Defined.


(** ** Selecting a processed document *)

(** X16.  What a fulfilled [/process] call stores can be read back by
    selecting the document: after the answer of a [processDocument] or
    reprocess call, selecting a list item with the id of the call makes
    the current document ['completed'] with the chunks and metadata of the
    response, and displays those chunks. *)
Theorem select_after_process
    (st : State) (n i : nat) (r : Run) (f : FileObj)
    (chunks : list Chunk) (metadata : Metadata) :
  runs st !! n = Some r → r_pending r = true → r_op r ≠ OpIndex →
  files st !! i = Some f → f_id f = r_doc r →
  let st' := exec [ESettle n (ProcessOk chunks metadata); ESelect i] st in
  currentDocument st' = Some (file_completed chunks metadata f)
  ∧ documentChunks st' = chunks
  ∧ (f_status <$> currentDocument st') = Some Completed
  ∧ (currentDocument st' ≫= f_metadata) = Some metadata.
Proof.
  intros Hr Hp Hop Hi Hid st'. subst st'. simpl.
  destruct (process_ok_files n r chunks metadata st Hr Hp Hop) as [Hfiles _].
  assert (files (settle n (ProcessOk chunks metadata) st) !! i
          = Some (file_completed chunks metadata f)) as Hi'.
  { rewrite Hfiles, lookup_map_if, Hi. simpl.
    apply String.eqb_eq in Hid. by rewrite Hid. }
  by rewrite Hi'.
Qed.

Lemma select_after_process_witness :
  let st := exec [ EFileUpload [("rapport.txt", "file-1-k3x9")];
                   EUploaded 0 "doc-1" ] initial_state in
  documentChunks (exec [ESettle 0 (ProcessOk chunks_v1 metadata_v1); ESelect 0] st)
  = chunks_v1.
Proof.
  cbv zeta.
  refine (proj1 (proj2 (select_after_process
    (exec [ EFileUpload [("rapport.txt", "file-1-k3x9")];
            EUploaded 0 "doc-1" ] initial_state) 0 0
    {| r_op := OpProcess; r_doc := "doc-1"; r_config := DEFAULT_CONFIG;
       r_current := None; r_progress := 0; r_interval := true; r_pending := true |}
    (file_uploaded "doc-1" (file_new "rapport.txt" "file-1-k3x9"))
    chunks_v1 metadata_v1 eq_refl eq_refl _ eq_refl eq_refl))).
  discriminate.
Defined.

(** ** The upload loop *)

Lemma upload_loop_closure k u st :
  uploads st !! k = Some u →
  uploads (upload_loop k st) !! k
  = Some match u_rest u with
         | [] => {| u_file := u_file u; u_rest := []; u_config := u_config u;
                    u_current := u_current u; u_pending := false |}
         | (file, tmpId) :: rest =>
             {| u_file := file; u_rest := rest; u_config := u_config u;
                u_current := u_current u; u_pending := true |}
         end
  ∧ length (files (upload_loop k st))
    = (length (files st) + match u_rest u with [] => 0 | _ :: _ => 1 end)%nat
  ∧ runs (upload_loop k st) = runs st.
Proof.
  intros Hu. unfold upload_loop. rewrite Hu.
  assert (k < length (uploads st))%nat by (by eapply lookup_lt_Some).
  destruct (u_rest u) as [|[file tmpId] rest]; simpl.
  - rewrite list_lookup_insert_eq by done. split; [done |]. split; [lia | done].
  - rewrite list_lookup_insert_eq by done. split; [done |].
    split; [| done]. rewrite length_app. simpl. lia.
Qed.

Lemma upload_answers_count k (answers : list (string + string)) : ∀ st u,
  uploads st !! k = Some u → u_pending u = true →
  (length answers ≤ S (length (u_rest u)))%nat →
  let st' := exec (upload_answer k <$> answers) st in
  length (files st')
  = (length (files st) + Nat.min (length answers) (length (u_rest u)))%nat
  ∧ length (runs st') = (length (runs st) + length (filter (λ a, accepted a = true) answers))%nat
  ∧ (length answers = S (length (u_rest u)) →
     (u_pending <$> uploads st' !! k) = Some false).
Proof.
  induction answers as [|a answers IH]; intros st u Hu Hp Hlen; cbn [fmap list_fmap exec foldl].
  - simpl. split; [lia |]. split; [lia |]. simpl in *. lia.
  - fold (exec (upload_answer k <$> answers) (step (upload_answer k a) st)).
    set (st1 := step (upload_answer k a) st).
    assert (∃ st0, st1 = upload_loop k st0 ∧ uploads st0 !! k = Some u
                   ∧ length (files st0) = length (files st)
                   ∧ length (runs st0)
                     = (length (runs st) + if accepted a then 1 else 0)%nat)
      as (st0 & E & Hu0 & Hf0 & Hr0).
    { subst st1. destruct a as [uploadId|message]; simpl.
      - unfold handleFileUpload_then. rewrite Hu, Hp. eexists. split; [reflexivity |].
        simpl. split; [done |]. unfold map_if. rewrite length_map, length_app. done.
      - unfold handleFileUpload_catch. rewrite Hu, Hp. eexists. split; [reflexivity |].
        simpl. split; [done |]. unfold map_if. rewrite length_map. split; [done | lia]. }
    destruct (upload_loop_closure k u st0 Hu0) as (Hu1 & Hf1 & Hr1).
    rewrite <- E in Hu1, Hf1, Hr1.
    rewrite filter_cons.
    destruct (u_rest u) as [|[file tmpId] rest] eqn:Erest.
    + assert (answers = []) as -> by (destruct answers; [done | simpl in Hlen; lia]).
      simpl. rewrite Hf1, Hr1, Hf0, Hr0, Hu1.
      destruct (accepted a); simpl; (split; [lia |]); (split; [lia | done]).
    + destruct (IH st1 _ Hu1 eq_refl) as (Hf & Hr & Hend); [simpl in *; lia |].
      simpl in Hf, Hr, Hend. cbv zeta. rewrite Hf, Hr, Hf1, Hr1, Hf0, Hr0.
      destruct (accepted a); simpl;
        (split; [lia |]); (split; [lia |]); intros; apply Hend; lia.
Qed.



(** ** Connections and sending *)



